(** * Monte Carlo Tree Search bot: [ggpa/mcts_bot.py]

    A shallow embedding of [TreeNode] and [MCTSAgent].  Python objects live
    in a heap of nodes addressed by references, so that the [parent]
    back-pointers and the in-place mutation done by [backpropagate],
    [expand] and [select] are modelled with their aliasing.  The float
    arithmetic of the UCB1 formula and the game (battle state) are
    interfaces: the embedding is generic in them. *)

From Stdlib Require Import Floats.
From stdpp Require Import base numbers list option relations strings pretty.

Set Default Proof Using "Type*".

(** ** Interfaces *)

(** The float operations the bot uses.  [f_sum] is Python's [sum] on a list
    of floats, [of_int] the int-to-float conversion implicit in
    [float / int] and [math.log(int)], [f_gt] the comparison [>], [fmt_2f]
    the format [:.2f].  [math.log] is only applied to a positive count and
    [math.sqrt] to a quotient of such a logarithm by a positive count, so
    their [ValueError] on other arguments is left out. *)
Class FloatOps (F : Type) := {
  f_zero : F;
  f_inf : F;
  f_neg_inf : F;
  of_int : nat → F;
  f_sum : list F → F;
  f_add : F → F → F;
  f_mul : F → F → F;
  f_div : F → F → F;
  f_sqrt : F → F;
  f_log : F → F;
  f_gt : F → F → bool;
  fmt_2f : F → string
}.

(** The global generator of Python's [random] module: a tape of draws and
    a read position. *)
Record Rng := { tape : nat → nat; pos : nat }.

Definition advance (g : Rng) : Rng := {| tape := tape g; pos := S (pos g) |}.

(** [random.randrange(n)] for [0 < n]. *)
Definition randbelow (n : nat) (g : Rng) : nat * Rng :=
  (tape g (pos g) mod n, advance g).

(** The battle state the bot plays on: [ended], [get_actions], [step],
    [score], [copy_undeterministic], and the conversion [to_action] of a
    chosen action into what the game executes.  [step] and
    [copy_undeterministic] may draw from the generator. *)
Class Env (F State Action Exec : Type) := {
  action_eq_dec :: EqDecision Action;
  ended : State → bool;
  get_actions : State → list Action;
  step : State → Action → Rng → State * Rng;
  state_score : State → F;
  copy_undeterministic : State → Rng → State * Rng;
  to_action : Action → State → Exec;
  str_action : Action → string;
  str_actions : list Action → string
}.

(** ** Heap of tree nodes *)

Abbreviation ref := nat.

(** The attributes set by [TreeNode.__init__]. *)
Record TreeNode (F Action : Type) := mkNode {
  children : list (Action * ref);
  parent : option ref;
  results : list F;
  visits : nat;
  param : F
}.
Arguments mkNode {F Action}.
Arguments children {F Action}.
Arguments parent {F Action}.
Arguments results {F Action}.
Arguments visits {F Action}.
Arguments param {F Action}.

Record World (F Action : Type) := mkWorld {
  heap : list (TreeNode F Action);
  rng : Rng;
  stdout : list string
}.
Arguments mkWorld {F Action}.
Arguments heap {F Action}.
Arguments rng {F Action}.
Arguments stdout {F Action}.

(** How a call can fail: an [IndexError] of [random.choice] on an empty
    sequence, a [ValueError] of [max] on an empty sequence, a reference to
    no node (never the case in Python), or the recursion budget of the
    model being used up. *)
Inductive failure := IndexError | ValueError | Dangling | OutOfFuel.

Inductive outcome (W A : Type) :=
  | Done (a : A) (w : W)
  | Fail (e : failure).
Arguments Done {W A}.
Arguments Fail {W A}.

Definition M (F Action A : Type) := World F Action → outcome (World F Action) A.

Global Instance M_ret {F Action} : MRet (M F Action) := λ A a w, Done a w.
Global Instance M_bind {F Action} : MBind (M F Action) := λ A B k m w,
  match m w with
  | Done a w' => k a w'
  | Fail e => Fail e
  end.

Section Bot.
Context {F State Action Exec : Type}.
Context `{!FloatOps F} `{!Env F State Action Exec}.

#[local] Abbreviation Node := (TreeNode F Action).
#[local] Abbreviation W := (World F Action).
#[local] Abbreviation Mo := (M F Action).

Definition raise {A} (e : failure) : Mo A := λ _, Fail e.

Definition get_node (r : ref) : Mo Node := λ w,
  match heap w !! r with
  | Some n => Done n w
  | None => Fail Dangling
  end.

Definition modify_node (r : ref) (f : Node → Node) : Mo unit := λ w,
  match heap w !! r with
  | Some n => Done () (mkWorld (<[r := f n]> (heap w)) (rng w) (stdout w))
  | None => Fail Dangling
  end.

Definition print (s : string) : Mo unit := λ w,
  Done () (mkWorld (heap w) (rng w) (stdout w ++ [s])).

Definition with_rng {A} (f : Rng → A * Rng) : Mo A := λ w,
  let '(a, g) := f (rng w) in Done a (mkWorld (heap w) g (stdout w)).

(** [random.choice(seq)] *)
Definition choice {A} (seq : list A) : Mo A :=
  match seq with
  | [] => raise IndexError
  | x :: _ =>
      i ← with_rng (randbelow (length seq));
      mret (nth i seq x)
  end.

(** [TreeNode(param, parent)] *)
Definition init_node (p : F) (par : option ref) : Node :=
  mkNode [] par [] 0 p.

Definition new_node (p : F) (par : option ref) : Mo ref := λ w,
  Done (length (heap w))
       (mkWorld (heap w ++ [init_node p par]) (rng w) (stdout w)).

Definition append_result (r : F) (n : Node) : Node :=
  mkNode (children n) (parent n) (results n ++ [r]) (visits n) (param n).

Definition incr_visits (n : Node) : Node :=
  mkNode (children n) (parent n) (results n) (visits n + 1) (param n).

Definition append_child (a : Action) (c : ref) (n : Node) : Node :=
  mkNode (children n ++ [(a, c)]) (parent n) (results n) (visits n) (param n).

(** The world with its heap replaced. *)
Definition set_heap (h : list Node) (w : W) : W :=
  mkWorld h (rng w) (stdout w).

(** [TreeNode.backpropagate] *)
Fixpoint backpropagate (fuel : nat) (self : ref) (result : F) : Mo unit :=
  match fuel with
  | 0 => raise OutOfFuel
  | S fuel =>
      modify_node self (append_result result);;
      modify_node self incr_visits;;
      n ← get_node self;
      match parent n with
      | Some p => backpropagate fuel p result
      | None => mret ()
      end
  end.

(** [TreeNode.score] *)
Definition score (self : ref) (state : State) : F := state_score state.

(** [TreeNode.rollout]: the state is advanced in place, the score of
    the final state is returned. *)
Fixpoint rollout (fuel : nat) (self : ref) (state : State) : Mo F :=
  match fuel with
  | 0 => raise OutOfFuel
  | S fuel =>
      if ended state then mret (score self state)
      else
        action ← choice (get_actions state);
        state' ← with_rng (step state action);
        rollout fuel self state'
  end.

(** [TreeNode.expand] *)
Definition tried_of (n : Node) : list Action := (children n).*1.

Definition unexplored_of (n : Node) (available : list Action) : list Action :=
  filter (λ a, a ∉ tried_of n) available.

Definition expand (fuel : nat) (self : ref) (state : State)
    (available : list Action) : Mo ref :=
  n ← get_node self;
  action ← choice (unexplored_of n available);
  child ← new_node (param n) (Some self);
  modify_node self (append_child action child);;
  state' ← with_rng (step state action);
  reward ← rollout fuel child state';
  backpropagate fuel child reward;;
  mret child.

(** The children of a node together with the nodes they refer to. *)
Definition deref (h : list Node) (kids : list (Action * ref))
    : option (list (Action * ref * Node)) :=
  mapM (λ ac, n ← h !! ac.2; Some (ac, n)) kids.

Definition get_kids (n : Node) : Mo (list (Action * ref * Node)) := λ w,
  match deref (heap w) (children n) with
  | Some ks => Done ks w
  | None => Fail Dangling
  end.

(** [sum(node.results) / node.visits] *)
Definition average (n : Node) : F :=
  f_div (f_sum (results n)) (of_int (visits n)).

(** Lines 69-70 of [select]. *)
Definition total_visits (kids : list (Action * ref * Node)) : nat :=
  sum_list_with (λ k, visits k.2) kids.

Definition log_total (total : nat) : F :=
  if bool_decide (0 < total) then f_log (of_int total) else f_zero.

(** Lines 79-85 of [select]: the UCB1 score of one child. *)
Definition ucb_score (p : F) (logt : F) (node : Node) : F :=
  if bool_decide (visits node = 0) then f_inf
  else
    let avg_reward := average node in
    let exploit := avg_reward in
    let explore := f_mul p (f_sqrt (f_div logt (of_int (visits node)))) in
    f_add exploit explore.

(** Lines 72-89 of [select]: the loop over the children. *)
Fixpoint ucb_loop (p logt : F) (actions : list Action)
    (kids : list (Action * ref * Node))
    (best_score : F) (best : option (Action * ref)) : option (Action * ref) :=
  match kids with
  | [] => best
  | (action, c, node) :: kids =>
      if bool_decide (action ∈ actions) then
        let s := ucb_score p logt node in
        if f_gt s best_score
        then ucb_loop p logt actions kids s (Some (action, c))
        else ucb_loop p logt actions kids best_score best
      else ucb_loop p logt actions kids best_score best
  end.

(** Line 66 of [select]: the test that sends [select] to [expand]. *)
Definition expand_triggered (n : Node) (actions : list Action) : bool :=
  bool_decide (length (children n) < length actions).

(** Lines 91-101 of [select]: no child was picked by the loop. *)
Definition fallback (self : ref) (n : Node) (actions : list Action)
    : Mo (Action * ref) :=
  print ("[DEBUG] no UCB pick; legal actions = " +:+ str_actions actions);;
  print ("[DEBUG] children actions    = " +:+ str_actions (children n).*1);;
  best_action ← choice actions;
  match list_find (λ ac, ac.1 = best_action) (children n) with
  | Some (_, (_, c)) => mret (best_action, c)
  | None =>
      best_node ← new_node (param n) (Some self);
      modify_node self (append_child best_action best_node);;
      mret (best_action, best_node)
  end.

(** [TreeNode.select] *)
Fixpoint select (fuel : nat) (self : ref) (state : State) : Mo ref :=
  match fuel with
  | 0 => raise OutOfFuel
  | S fuel =>
      if ended state then
        let reward := score self state in
        backpropagate fuel self reward;;
        mret self
      else
        let actions := get_actions state in
        n ← get_node self;
        if expand_triggered n actions then expand fuel self state actions
        else
          kids ← get_kids n;
          let logt := log_total (total_visits kids) in
          pick ← match ucb_loop (param n) logt actions kids f_neg_inf None with
                 | Some pick => mret pick
                 | None => fallback self n actions
                 end;
          state' ← with_rng (step state pick.1);
          select fuel pick.2 state'
  end.

(** Lines 103-104 of [select]: the step into the picked child. *)
Definition descend (fuel : nat) (state : State) (pick : Action * ref) : Mo ref :=
  state' ← with_rng (step state pick.1); select fuel pick.2 state'.

(** [TreeNode.step] *)
Definition tree_step (fuel : nat) (self : ref) (state : State) : Mo unit :=
  select fuel self state;; mret ().

(** The loop of Python's [max(seq, key=...)]: the first item is kept
    until a later one has a strictly greater key. *)
Fixpoint max_from {A} (key : A → F) (best : A) (l : list A) : A :=
  match l with
  | [] => best
  | x :: l => if f_gt (key x) (key best) then max_from key x l
              else max_from key best l
  end.

(** The [key] of [get_best]. *)
Definition best_key (k : Action * ref * Node) : F :=
  if bool_decide (0 < visits k.2) then average k.2 else f_neg_inf.

(** [max(seq, key=...)] *)
Definition py_max {A} (key : A → F) (seq : list A) : Mo A :=
  match seq with
  | [] => raise ValueError
  | x :: seq => mret (max_from key x seq)
  end.

(** [TreeNode.get_best] *)
Definition get_best (self : ref) (state : State) : Mo Action :=
  n ← get_node self;
  match children n with
  | [] => choice (get_actions state)
  | _ :: _ =>
      kids ← get_kids n;
      best ← py_max best_key kids;
      mret best.1.1
  end.

(** [TreeNode.print_tree] *)
Definition indent_pad (indent : nat) : string :=
  String.concat "" (replicate indent " ").

Definition tree_line (indent : nat) (action : Action) (node : Node) : string :=
  let avg := if bool_decide (0 < visits node) then average node else f_zero in
  indent_pad indent +:+ str_action action +:+ ": visits=" +:+ pretty (visits node)
    +:+ ", avg=" +:+ fmt_2f avg.

Definition for_each {A} (l : list A) (body : A → Mo unit) : Mo unit :=
  foldr (λ x rest, body x;; rest) (mret ()) l.

Fixpoint print_tree (fuel : nat) (self : ref) (indent : nat) : Mo unit :=
  match fuel with
  | 0 => raise OutOfFuel
  | S fuel =>
      n ← get_node self;
      for_each (children n) (λ ac,
        node ← get_node ac.2;
        print (tree_line indent ac.1 node);;
        print_tree fuel ac.2 (indent + 2))
  end.

(** [MCTSAgent]: its three attributes. *)
Record MCTSAgent := mkAgent {
  iterations : nat;
  verbose : bool;
  agent_param : F
}.

(** The loop of [choose_card]: one sampled copy of the state and one
    [step] of the tree per iteration. *)
Fixpoint iterate (fuel : nat) (count : nat) (t : ref) (battle_state : State)
    : Mo unit :=
  match count with
  | 0 => mret ()
  | S count =>
      sample_state ← with_rng (copy_undeterministic battle_state);
      tree_step fuel t sample_state;;
      iterate fuel count t battle_state
  end.

(** [MCTSAgent.choose_card].  [get_best] returns one of the actions it
    was given, never [None], so the warning branch after it is dead. *)
Definition choose_card (fuel : nat) (agent : MCTSAgent) (battle_state : State)
    : Mo Exec :=
  let actions := get_actions battle_state in
  match actions with
  | [a] => mret (to_action a battle_state)
  | _ =>
      t ← new_node (agent_param agent) None;
      iterate fuel (iterations agent) t battle_state;;
      best_action ← get_best t battle_state;
      (if verbose agent then print_tree fuel t 0 else mret ());;
      mret (to_action best_action battle_state)
  end.

(** ** What is stated about heaps *)

(** [visits == len(results)] on every node. *)
Definition consistent (h : list Node) : Prop :=
  ∀ i n, h !! i = Some n → visits n = length (results n).

(** No two entries of a [children] list carry the same action. *)
Definition distinct_children (h : list Node) : Prop :=
  ∀ i n, h !! i = Some n → NoDup (children n).*1.

(** Parents are older than their children: the heap allocates in order
    and [parent] is set once, at construction. *)
Definition wf_parents (h : list Node) : Prop :=
  ∀ i n p, h !! i = Some n → parent n = Some p → p < i.

Definition is_parent (h : list Node) (i p : ref) : Prop :=
  ∃ n, h !! i = Some n ∧ parent n = Some p.

(** [i] is [L] or one of its ancestors. *)
Definition on_path (h : list Node) (L i : ref) : Prop :=
  rtc (is_parent h) L i.

(** The node after one visit by [backpropagate]. *)
Definition visited (r : F) (n : Node) : Node :=
  mkNode (children n) (parent n) (results n ++ [r]) (visits n + 1) (param n).

(** The three ways in which the methods change the heap. *)
Inductive mut : list Node → list Node → Prop :=
  | mut_alloc h p par :
      (∀ r, par = Some r → r < length h) →
      mut h (h ++ [init_node p par])
  | mut_visit h i n r :
      h !! i = Some n →
      mut h (<[i := visited r n]> h)
  | mut_child h i n a c :
      h !! i = Some n → a ∉ tried_of n →
      mut h (<[i := append_child a c n]> h).

(** The calls a client can make.  A node is constructed with no parent
    or with an existing node as parent. *)
Inductive call :=
  | CallNew (p : F) (par : option ref)
  | CallStep (fuel : nat) (self : ref) (state : State)
  | CallSelect (fuel : nat) (self : ref) (state : State)
  | CallExpand (fuel : nat) (self : ref) (state : State) (available : list Action)
  | CallRollout (fuel : nat) (self : ref) (state : State)
  | CallBackpropagate (fuel : nat) (self : ref) (result : F)
  | CallGetBest (self : ref) (state : State)
  | CallPrintTree (fuel : nat) (self : ref) (indent : nat)
  | CallChooseCard (fuel : nat) (agent : MCTSAgent) (battle_state : State).

Definition run (c : call) : Mo unit :=
  match c with
  | CallNew p par =>
      match par with
      | Some r => get_node r;; new_node p par;; mret ()
      | None => new_node p par;; mret ()
      end
  | CallStep fuel self state => tree_step fuel self state
  | CallSelect fuel self state => select fuel self state;; mret ()
  | CallExpand fuel self state available =>
      expand fuel self state available;; mret ()
  | CallRollout fuel self state => rollout fuel self state;; mret ()
  | CallBackpropagate fuel self result => backpropagate fuel self result
  | CallGetBest self state => get_best self state;; mret ()
  | CallPrintTree fuel self indent => print_tree fuel self indent
  | CallChooseCard fuel agent battle_state =>
      choose_card fuel agent battle_state;; mret ()
  end.

(** The worlds that arise from an empty heap by such calls. *)
Inductive reachable : W → Prop :=
  | reach_init g out : reachable (mkWorld [] g out)
  | reach_call w c w' : reachable w → run c w = Done () w' → reachable w'.

(** A sequence of calls. *)
Definition run_all (cs : list call) : Mo unit := for_each cs run.

(** ** What is stated about scores *)

(** [>] orders the values of [vs] as numbers are ordered: a list of
    floats without NaN is of this kind. *)
Definition strict_weak (vs : list F) : Prop :=
  ∀ x y z, x ∈ vs → y ∈ vs → z ∈ vs →
    f_gt x x = false ∧
    (f_gt x y = true → f_gt y z = true → f_gt x z = true) ∧
    (f_gt x y = true → f_gt z y = false → f_gt x z = true).

(** The same as a test. *)
Definition strict_weakb (vs : list F) : bool :=
  forallb (λ x, forallb (λ y, forallb (λ z,
    negb (f_gt x x)
    && implb (f_gt x y && f_gt y z) (f_gt x z)
    && implb (f_gt x y && negb (f_gt z y)) (f_gt x z)) vs) vs) vs.

(** Position [i] of [l] is the first one with the greatest [key]. *)
Definition first_max {A} (key : A → F) (l : list A) (i : nat) : Prop :=
  ∃ x, l !! i = Some x ∧
    (∀ j y, l !! j = Some y → f_gt (key y) (key x) = false) ∧
    (∀ j y, j < i → l !! j = Some y → f_gt (key x) (key y) = true).

(** The score of a child in the selection rule of [select], given the
    siblings [kids] and the exploration parameter [p]. *)
Definition ucb1 (p : F) (kids : list (Action * ref * Node))
    (k : Action * ref * Node) : F :=
  ucb_score p (log_total (total_visits kids)) k.2.

(** The same score with the visits summed over the children whose action
    is legal only. *)
Definition ucb1_legal_only (p : F) (actions : list Action)
    (kids : list (Action * ref * Node)) (k : Action * ref * Node) : F :=
  ucb_score p
    (log_total (total_visits (filter (λ k, k.1.1 ∈ actions) kids))) k.2.

(** ** What is stated about the shape of the tree *)

(** Every node of [h] is still in [h'], with the parent and the parameter
    it had, its children and its results extended at the end, and no fewer
    visits. *)
Definition extends (h h' : list Node) : Prop :=
  ∀ i n, h !! i = Some n →
    ∃ n', h' !! i = Some n' ∧ parent n' = parent n ∧ param n' = param n ∧
      children n `prefix_of` children n' ∧
      results n `prefix_of` results n' ∧
      visits n ≤ visits n'.

(** The children of a node are newer than the node, name it as their
    parent and carry its parameter. *)
Definition linked (h : list Node) : Prop :=
  ∀ i n a c, h !! i = Some n → (a, c) ∈ children n →
    i < c ∧ ∃ m, h !! c = Some m ∧ parent m = Some i ∧ param m = param n.

(** The changes of the heap, with a new child as [expand] and [select]
    make it: constructed with the node as parent and with its parameter,
    then appended to its children. *)
Inductive grow : list Node → list Node → Prop :=
  | grow_node h p par :
      (∀ r, par = Some r → r < length h) →
      grow h (h ++ [init_node p par])
  | grow_visit h i n r :
      h !! i = Some n →
      grow h (<[i := visited r n]> h)
  | grow_child h i n a :
      h !! i = Some n → a ∉ tried_of n →
      grow h (<[i := append_child a (length h) n]>
                (h ++ [init_node (param n) (Some i)])).

(** ** What is stated about the game *)

(** The game keeps its contract and ends: a state that has not ended
    offers at least one action, no action twice, and every legal step
    brings the end nearer, as measured by [μ]. *)
Definition well_behaved (μ : State → nat) : Prop :=
  ∀ s, ended s = false →
    get_actions s ≠ [] ∧ NoDup (get_actions s) ∧
    ∀ a g, a ∈ get_actions s → μ (step s a g).1 < μ s.

(** The same contract for the states of [P] only, which every legal step
    keeps in [P]: what is asked of the game from a given state on. *)
Definition keeps_contract (P : State → Prop) (μ : State → nat) : Prop :=
  ∀ s, P s → ended s = false →
    get_actions s ≠ [] ∧ NoDup (get_actions s) ∧
    ∀ a g, a ∈ get_actions s → P (step s a g).1 ∧ μ (step s a g).1 < μ s.

End Bot.

(** ** A concrete instance

    IEEE doubles for the floats, and a game given by a script: the legal
    actions of each coming turn are listed in advance, a step consumes one
    turn whatever the action, and the game ends with the script. *)
Module Scripted.

(** [sum] of a list of floats, added from the left starting at zero. *)
Definition sum_floats (l : list float) : float :=
  fold_left PrimFloat.add l PrimFloat.zero.

Definition float_of_nat (n : nat) : float :=
  PrimFloat.of_uint63 (Uint63.of_Z (Z.of_nat n)).

(** A natural logarithm: the exponent is split off and the mantissa
    [m] in [0.5, 1) goes through the series of [2 * atanh ((m-1)/(m+1))].
    It stands in for the [math.log] of the platform, from which it can
    differ in the last place; only the examples on concrete trees use
    it. *)
Fixpoint atanh_series (terms : nat) (z z2 : float) (k : float) : float :=
  match terms with
  | 0 => PrimFloat.zero
  | S terms =>
      (z / k + atanh_series terms (z * z2) z2 (k + 2))%float
  end.

Definition ln2 : float := 0x1.62e42fefa39efp-1%float.

Definition log_float (x : float) : float :=
  if (x =? 1)%float then PrimFloat.zero
  else
    let '(m, e) := PrimFloat.frshiftexp x in
    let ez := (Uint63.to_Z e - FloatOps.shift)%Z in
    let z := ((m - 1) / (m + 1))%float in
    let efl := if (ez <? 0)%Z
               then (- PrimFloat.of_uint63 (Uint63.of_Z (- ez)))%float
               else PrimFloat.of_uint63 (Uint63.of_Z ez) in
    (efl * ln2 + 2 * atanh_series 30 z (z * z) 1)%float.

(** Two decimals of a float, in the manner of [%.2f].  The scaled value
    is rounded half up, where Python rounds the exact binary value: the two
    differ on a float that sits on half a hundredth, such as [0.125]; only
    the examples on concrete trees use it. *)
Definition hundredths (x : float) : Z :=
  match Prim2SF (PrimFloat.abs x * 100 + 0.5)%float with
  | S754_finite _ m e =>
      if (0 <=? e)%Z then Z.shiftl (Z.pos m) e else Z.shiftr (Z.pos m) (- e)
  | _ => 0%Z
  end.

Definition two_digits (z : Z) : string :=
  (if (z <? 10)%Z then "0" else "") +:+ pretty z.

Definition format_2f (x : float) : string :=
  if PrimFloat.is_nan x then "nan"
  else if PrimFloat.is_infinity x
    then (if (x <? 0)%float then "-inf" else "inf")
  else
    let h := hundredths x in
    (if (x <? 0)%float then "-" else "") +:+ pretty (h / 100)%Z
      +:+ "." +:+ two_digits (h mod 100)%Z.

#[global] Instance float_ops : FloatOps float := {|
  f_zero := PrimFloat.zero;
  f_inf := PrimFloat.infinity;
  f_neg_inf := PrimFloat.neg_infinity;
  of_int := float_of_nat;
  f_sum := sum_floats;
  f_add := PrimFloat.add;
  f_mul := PrimFloat.mul;
  f_div := PrimFloat.div;
  f_sqrt := PrimFloat.sqrt;
  f_log := log_float;
  f_gt := λ x y, PrimFloat.ltb y x;
  fmt_2f := format_2f
|}.

(** The scripted game.  Actions are numbered; the score of a finished
    game is half the sum of the actions played. *)
Record game := mkGame {
  script : list (list nat);
  played : list nat
}.

Definition game_step (s : game) (a : nat) (g : Rng) : game * Rng :=
  (mkGame (tail (script s)) (played s ++ [a]), g).

#[global] Instance game_env : Env float game nat nat := {|
  ended := λ s, bool_decide (script s = []);
  get_actions := λ s, default [] (head (script s));
  step := game_step;
  state_score := λ s, (float_of_nat (sum_list (played s)) / 2)%float;
  copy_undeterministic := λ s g, (s, g);
  to_action := λ a _, a;
  str_action := pretty;
  str_actions := λ l, "[" +:+ String.concat ", " (pretty <$> l) +:+ "]"
|}.

(** A script whose every turn offers at least one action and no action
    twice. *)
Definition sound_script (s : game) : Prop :=
  Forall (λ turn, turn ≠ [] ∧ NoDup turn) (script s).

(** A generator whose draws are all [k]. *)
Definition const_rng (k : nat) : Rng := {| tape := λ _, k; pos := 0 |}.

Definition empty_world (g : Rng) : World float nat := mkWorld [] g [].

(** A node with exploration parameter [0.5], visited once per result. *)
Definition node_of (kids : list (nat * nat)) (par : option nat)
    (rs : list float) : TreeNode float nat :=
  mkNode kids par rs (length rs) 0.5%float.

(** A root with children for the actions 2, 1 and 0: the first seen four
    times with outcome 1, the second once with outcome 0.5, the third 195
    times with outcome 0. *)
Definition grown_root : TreeNode float nat :=
  node_of [(2, 1); (1, 2); (0, 3)] None
    ([1%float; 0.5%float; 0%float] ++ replicate 3 1%float
       ++ replicate 194 0%float).

Definition grown_kids : list (nat * nat * TreeNode float nat) :=
  [ (2, 1, node_of [] (Some 0) (replicate 4 1%float));
    (1, 2, node_of [] (Some 0) [0.5%float]);
    (0, 3, node_of [] (Some 0) (replicate 195 0%float)) ].

Definition grown_heap : list (TreeNode float nat) :=
  grown_root :: grown_kids.*2.

Definition grown_world : World float nat :=
  mkWorld grown_heap {| tape := λ _, 0; pos := 3 |} [].

(** One turn left, on which the actions 2, 1 and 0 are legal. *)
Definition same_game : game := mkGame [[2; 1; 0]] [].

(** One turn left, on which only the action [a] is legal. *)
Definition forced_game (a : nat) : game := mkGame [[a]] [].

(** One turn left, on which the actions 2, 1 and 9 are legal: the
    action 0 of the third child is not, and 9 has no child. *)
Definition shifted_game : game := mkGame [[2; 1; 9]] [].

(** One turn left, on which only 7, 8 and 9 are legal: no child of the
    root is. *)
Definition foreign_game : game := mkGame [[7; 8; 9]] [].

(** The calls that grow [grown_world] from the empty heap: the root, three
    searches with 2, 1 and 0 legal, three with 2 alone and 194 with 0
    alone. *)
Definition growth : list (call (F := float) (State := game) (Action := nat)) :=
  [CallNew 0.5%float None]
    ++ replicate 3 (CallSelect 4 0 same_game)
    ++ replicate 3 (CallSelect 4 0 (forced_game 2))
    ++ replicate 194 (CallSelect 4 0 (forced_game 0)).

(** A game of three turns and the world after a search of seven
    iterations on it. *)
Definition long_game : game := mkGame [[1; 2]; [3; 4]; [5]] [].

Definition searched_world : World float nat :=
  match run (CallChooseCard 20 (mkAgent 7 true 0.5%float) long_game)
            (empty_world (const_rng 1)) with
  | Done _ w => w
  | Fail _ => empty_world (const_rng 1)
  end.

End Scripted.

(** ** A second instance: a game of a given number of turns

    The state is the number of turns left; on each turn the actions 0 and
    1 are legal; the score of a finished game is 1. *)
Module Countdown.

#[export] Instance countdown_env : Env float nat nat nat := {|
  ended := λ s, bool_decide (s = 0);
  get_actions := λ s, if bool_decide (s = 0) then [] else [0; 1];
  step := λ s a g, (pred s, g);
  state_score := λ s, 1%float;
  copy_undeterministic := λ s g, (s, g);
  to_action := λ a _, a;
  str_action := pretty;
  str_actions := λ l, "[" +:+ String.concat ", " (pretty <$> l) +:+ "]"
|}.

End Countdown.

(** * Proofs *)

Section Proofs.
Context {F State Action Exec : Type}.
Context `{!FloatOps F} `{!Env F State Action Exec}.

#[local] Abbreviation Node := (TreeNode F Action).
#[local] Abbreviation W := (World F Action).
#[local] Abbreviation Mo := (M F Action).

Implicit Types (w : W) (h : list Node) (n : Node) (g : Rng).

(** ** The monad *)

Ltac both_ways :=
  split; intros;
  repeat match goal with
  | H : ∃ _, _ |- _ => destruct H
  | H : _ ∧ _ |- _ => destruct H
  end; simplify_eq/=; eauto 6.

Lemma bind_Done {A B} (m : Mo A) (k : A → Mo B) w b w' :
  (m ≫= k) w = Done b w' ↔ ∃ a w1, m w = Done a w1 ∧ k a w1 = Done b w'.
Proof. unfold mbind, M_bind. destruct (m w); both_ways. Qed.

Lemma bind_eq {A B} (m : Mo A) (k : A → Mo B) w a w1 :
  m w = Done a w1 → (m ≫= k) w = k a w1.
Proof. unfold mbind, M_bind. by intros ->. Qed.

Lemma ret_Done {A} (a b : A) w w' :
  (mret a : Mo A) w = Done b w' ↔ a = b ∧ w = w'.
Proof. unfold mret, M_ret. both_ways. Qed.

Lemma get_node_Done r w n w' :
  get_node r w = Done n w' ↔ heap w !! r = Some n ∧ w' = w.
Proof. unfold get_node. destruct (heap w !! r); both_ways. Qed.

Lemma modify_node_Done r (f : Node → Node) w u w' :
  modify_node r f w = Done u w' ↔
  ∃ n, heap w !! r = Some n ∧
       w' = mkWorld (<[r := f n]> (heap w)) (rng w) (stdout w).
Proof. unfold modify_node. destruct (heap w !! r), u; both_ways. Qed.

Lemma print_Done s w u w' :
  print s w = Done u w' ↔ w' = mkWorld (heap w) (rng w) (stdout w ++ [s]).
Proof. unfold print. destruct u. both_ways. Qed.

Lemma with_rng_Done {A} (f : Rng → A * Rng) w a w' :
  with_rng f w = Done a w' ↔
  a = (f (rng w)).1 ∧ w' = mkWorld (heap w) (f (rng w)).2 (stdout w).
Proof. unfold with_rng. destruct (f (rng w)); both_ways. Qed.

Lemma new_node_Done p par w r w' :
  new_node p par w = Done r w' ↔
  r = length (heap w) ∧
  w' = mkWorld (heap w ++ [init_node p par]) (rng w) (stdout w).
Proof. unfold new_node. both_ways. Qed.

(** [random.choice] returns an item of the sequence, the one at the
    position drawn, and only moves the generator. *)
Lemma choice_Done {A} (seq : list A) w a w' :
  choice seq w = Done a w' ↔
  seq ≠ [] ∧ seq !! (tape (rng w) (pos (rng w)) mod length seq) = Some a ∧
  w' = mkWorld (heap w) (advance (rng w)) (stdout w).
Proof.
  destruct seq as [|x seq]; [by both_ways|].
  unfold choice. rewrite bind_Done.
  set (k := tape (rng w) (pos (rng w)) mod length (x :: seq)).
  assert (Hnth : (x :: seq) !! k = Some (nth k (x :: seq) x)).
  { destruct (nth_lookup_or_length (x :: seq) k x) as [|Hge]; [done|].
    pose proof (Nat.mod_upper_bound (tape (rng w) (pos (rng w)))
                  (length (x :: seq))) as Hlt.
    simpl in *. unfold k in Hge. simpl in Hge. lia. }
  rewrite Hnth. split.
  - intros (i & w1 & [-> ->]%with_rng_Done & [<- <-]%ret_Done). done.
  - intros (_ & [= <-] & ->). eexists _, _. split.
    + by apply with_rng_Done.
    + by apply ret_Done.
Qed.

Lemma choice_elem {A} (seq : list A) w a w' :
  choice seq w = Done a w' → a ∈ seq ∧ heap w' = heap w.
Proof.
  intros (_ & Ha & ->)%choice_Done. split; [|done].
  by eapply list_elem_of_lookup_2.
Qed.

Lemma get_kids_Done n w ks w' :
  get_kids n w = Done ks w' ↔ deref (heap w) (children n) = Some ks ∧ w' = w.
Proof. unfold get_kids. destruct (deref _ _); both_ways. Qed.

Ltac inv_step :=
  match goal with
  | H : (_ ≫= _) _ = Done _ _ |- _ =>
      apply bind_Done in H as (? & ? & ? & H)
  | H : mret _ _ = Done _ _ |- _ => apply ret_Done in H as [? ?]; subst
  | H : get_node _ _ = Done _ _ |- _ =>
      apply get_node_Done in H as [? ?]; subst
  | H : modify_node _ _ _ = Done _ _ |- _ =>
      apply modify_node_Done in H as (? & ? & ?); subst
  | H : print _ _ = Done _ _ |- _ => apply print_Done in H; subst
  | H : with_rng _ _ = Done _ _ |- _ =>
      apply with_rng_Done in H as [? ?]; subst
  | H : new_node _ _ _ = Done _ _ |- _ =>
      apply new_node_Done in H as [? ?]; subst
  | H : get_kids _ _ = Done _ _ |- _ =>
      apply get_kids_Done in H as [? ?]; subst
  | H : raise _ _ = Done _ _ |- _ => discriminate H
  | H : Fail _ = Done _ _ |- _ => discriminate H
  end.

(** ** One level of [backpropagate] *)

Lemma backpropagate_unfold fuel self r w n :
  heap w !! self = Some n →
  backpropagate (S fuel) self r w =
    let w1 := set_heap (<[self := visited r n]> (heap w)) w in
    match parent n with
    | Some p => backpropagate fuel p r w1
    | None => Done () w1
    end.
Proof.
  intros Hn. pose proof (lookup_lt_Some _ _ _ Hn) as Hlt. simpl.
  rewrite (bind_eq _ _ w ()
    (mkWorld (<[self := append_result r n]> (heap w)) (rng w) (stdout w))).
  2:{ unfold modify_node. by rewrite Hn. }
  rewrite (bind_eq _ _ _ () (set_heap (<[self := visited r n]> (heap w)) w)).
  2:{ unfold modify_node. simpl. rewrite list_lookup_insert_eq by done.
      by rewrite list_insert_insert_eq. }
  rewrite (bind_eq _ _ _ (visited r n)
    (set_heap (<[self := visited r n]> (heap w)) w)).
  2:{ unfold get_node. simpl. by rewrite list_lookup_insert_eq. }
  change (parent (visited r n)) with (parent n). by destruct (parent n).
Qed.

Lemma backpropagate_dangling fuel self r w :
  heap w !! self = None → backpropagate (S fuel) self r w = Fail Dangling.
Proof.
  intros Hn. simpl. unfold mbind, M_bind, modify_node. by rewrite Hn.
Qed.

(** ** Every method changes the heap by allocations, visits and new
    children for untried actions *)

Lemma backpropagate_mut fuel self r w u w' :
  backpropagate fuel self r w = Done u w' →
  rtc mut (heap w) (heap w') ∧ rng w' = rng w ∧ stdout w' = stdout w.
Proof.
  revert self w. induction fuel as [|fuel IH]; intros self w Hb; [discriminate Hb|].
  destruct (heap w !! self) as [n|] eqn:Hn.
  - rewrite (backpropagate_unfold _ _ _ _ n Hn) in Hb. simpl in Hb.
    assert (Hm : mut (heap w) (<[self := visited r n]> (heap w)))
      by by constructor.
    destruct (parent n).
    + apply IH in Hb as (Hrtc & -> & ->). split; [|done].
      by eapply rtc_l.
    + destruct u. injection Hb as <-. split; [|done]. by apply rtc_once.
  - by rewrite backpropagate_dangling in Hb.
Qed.

Lemma rollout_frame fuel self state w r w' :
  rollout fuel self state w = Done r w' →
  heap w' = heap w ∧ stdout w' = stdout w.
Proof.
  revert state w. induction fuel as [|fuel IH]; intros state w Hr; [discriminate Hr|].
  simpl in Hr. destruct (ended state).
  - by inv_step.
  - repeat inv_step.
    match goal with H : choice _ _ = Done _ _ |- _ =>
      apply choice_Done in H as (_ & _ & ->) end.
    by apply IH in Hr as [-> ->].
Qed.

Lemma child_mut h self n a p :
  h !! self = Some n → a ∉ tried_of n →
  rtc mut h (<[self := append_child a (length h) n]>
               (h ++ [init_node p (Some self)])).
Proof.
  intros Hn Ha. pose proof (lookup_lt_Some _ _ _ Hn) as Hlt.
  eapply rtc_l.
  - apply (mut_alloc h p (Some self)). by intros r [= <-].
  - apply rtc_once. apply mut_child; [|done]. by apply lookup_app_l_Some.
Qed.

Lemma expand_mut fuel self state available w c w' :
  expand fuel self state available w = Done c w' →
  rtc mut (heap w) (heap w').
Proof.
  unfold expand. intros Hx. repeat inv_step. simpl in *.
  repeat match goal with
  | H : choice _ _ = Done _ _ |- _ =>
      apply choice_Done in H as (_ & Hel%list_elem_of_lookup_2 & ->)
  | H : rollout _ _ _ _ = Done _ _ |- _ => apply rollout_frame in H as [Hh _]
  | H : backpropagate _ _ _ _ = Done _ _ |- _ =>
      apply backpropagate_mut in H as [Hrtc _]
  end. simpl in *.
  apply list_elem_of_filter in Hel as [Hnot _].
  match goal with
  | H1 : heap w !! self = Some ?n, H2 : (heap w ++ _) !! self = Some _ |- _ =>
      rewrite (lookup_app_l_Some _ _ _ _ H1) in H2; injection H2 as <-;
      pose proof (child_mut _ _ _ _ (param n) H1 Hnot) as Hc
  end.
  rewrite Hh in Hrtc. by etrans.
Qed.

Lemma fallback_mut self n actions w pick w' :
  heap w !! self = Some n →
  fallback self n actions w = Done pick w' →
  rtc mut (heap w) (heap w').
Proof.
  unfold fallback. intros Hn Hf. repeat inv_step. simpl in *.
  match goal with
  | H : choice _ _ = Done _ _ |- _ => apply choice_Done in H as (_ & _ & ->)
  end. simpl in *.
  destruct (list_find _ _) as [[i [a c]]|] eqn:Hfind.
  - by inv_step.
  - repeat inv_step. simpl in *.
    apply list_find_None in Hfind.
    match goal with
    | H2 : (heap w ++ _) !! self = Some _ |- _ =>
        rewrite (lookup_app_l_Some _ _ _ _ Hn) in H2; injection H2 as <-
    end.
    apply child_mut; [done|].
    unfold tried_of. intros ([a c] & -> & Hin)%list_elem_of_fmap.
    by eapply Forall_forall in Hfind.
Qed.

Lemma select_mut fuel self state w r w' :
  select fuel self state w = Done r w' →
  rtc mut (heap w) (heap w').
Proof.
  revert self state w.
  induction fuel as [|fuel IH]; intros self state w Hs; [discriminate Hs|].
  simpl in Hs. destruct (ended state).
  - repeat inv_step.
    match goal with H : backpropagate _ _ _ _ = Done _ _ |- _ =>
      by apply backpropagate_mut in H as [? _] end.
  - repeat inv_step. destruct (expand_triggered _ _).
    { by eapply expand_mut. }
    repeat inv_step. simpl in *.
    apply IH in Hs.
    destruct (ucb_loop _ _ _ _ _ _).
    + by inv_step.
    + match goal with H : fallback _ _ _ _ = Done _ _ |- _ =>
        eapply fallback_mut in H; [|done] end.
      by etrans.
Qed.

Lemma get_best_frame self state w a w' :
  get_best self state w = Done a w' →
  heap w' = heap w ∧ stdout w' = stdout w.
Proof.
  unfold get_best. intros Hg. repeat inv_step.
  match goal with x : Node |- _ => destruct (children x) end.
  - by apply choice_Done in Hg as (_ & _ & ->).
  - repeat inv_step.
    match goal with H : py_max _ ?ks _ = Done _ _ |- _ =>
      destruct ks; [discriminate H|]; simpl in H end.
    by repeat inv_step.
Qed.

Lemma for_each_frame {A} (l : list A) (body : A → Mo unit) w u w' :
  (∀ x w1 u1 w2, x ∈ l → body x w1 = Done u1 w2 →
                 heap w2 = heap w1 ∧ rng w2 = rng w1) →
  for_each l body w = Done u w' →
  heap w' = heap w ∧ rng w' = rng w.
Proof.
  revert w. induction l as [|x l IH]; intros w Hbody Hf; simpl in Hf.
  - by inv_step.
  - apply bind_Done in Hf as (u1 & w1 & Hx & Hf).
    apply Hbody in Hx as [<- <-]; [|left].
    apply IH in Hf; [done|]. intros ???? Hin. apply Hbody. by right.
Qed.

Lemma print_tree_frame fuel self indent w u w' :
  print_tree fuel self indent w = Done u w' →
  heap w' = heap w ∧ rng w' = rng w.
Proof.
  revert self indent w u w'.
  induction fuel as [|fuel IH]; intros self indent w u w' Hp;
    [discriminate Hp|].
  simpl in Hp. repeat inv_step.
  eapply for_each_frame in Hp; [done|].
  intros k w1 u1 w2 _ Hb. repeat inv_step. by apply IH in Hb.
Qed.

Lemma iterate_mut fuel count t battle_state w u w' :
  iterate fuel count t battle_state w = Done u w' →
  rtc mut (heap w) (heap w').
Proof.
  revert w. induction count as [|count IH]; intros w Hi; simpl in Hi.
  - by inv_step.
  - unfold tree_step in Hi. repeat inv_step. simpl in *.
    match goal with H : select _ _ _ _ = Done _ _ |- _ =>
      apply select_mut in H end.
    apply IH in Hi. by etrans.
Qed.

Lemma choose_card_mut fuel agent battle_state w e w' :
  choose_card fuel agent battle_state w = Done e w' →
  rtc mut (heap w) (heap w').
Proof.
  unfold choose_card. intros Hc.
  assert (Hgen :
    (t ← new_node (agent_param agent) None;
     iterate fuel (iterations agent) t battle_state;;
     best_action ← get_best t battle_state;
     (if verbose agent then print_tree fuel t 0 else mret ());;
     mret (to_action best_action battle_state)) w = Done e w' →
    rtc mut (heap w) (heap w')).
  { clear Hc. intros Hc.
    apply bind_Done in Hc as (t & w1 & [-> ->]%new_node_Done & Hc).
    apply bind_Done in Hc as (u1 & w2 & Hit%iterate_mut & Hc).
    apply bind_Done in Hc as (b & w3 & [Hg _]%get_best_frame & Hc).
    apply bind_Done in Hc as (u2 & w4 & Hp & [_ <-]%ret_Done).
    assert (Hv : heap w4 = heap w3).
    { destruct (verbose agent).
      - by apply print_tree_frame in Hp as [-> _].
      - by apply ret_Done in Hp as [_ ->]. }
    rewrite Hv, Hg. eapply rtc_l; [|done].
    apply (mut_alloc _ _ None). by intros. }
  destruct (get_actions battle_state) as [|a [|b l]]; [by auto| |by auto].
  by inv_step.
Qed.

Lemma run_mut c w u w' : run c w = Done u w' → rtc mut (heap w) (heap w').
Proof.
  destruct c; simpl; intros Hr.
  - destruct par as [r|]; repeat inv_step; simpl; apply rtc_once.
    + apply (mut_alloc _ _ (Some r)). intros ? [= <-].
      by eapply lookup_lt_Some.
    + by apply (mut_alloc _ _ None).
  - unfold tree_step in Hr. repeat inv_step. by eapply select_mut.
  - repeat inv_step. by eapply select_mut.
  - repeat inv_step. by eapply expand_mut.
  - repeat inv_step.
    match goal with H : rollout _ _ _ _ = Done _ _ |- _ =>
      by apply rollout_frame in H as [-> _] end.
  - by apply backpropagate_mut in Hr as [? _].
  - repeat inv_step.
    match goal with H : get_best _ _ _ = Done _ _ |- _ =>
      by apply get_best_frame in H as [-> _] end.
  - by apply print_tree_frame in Hr as [-> _].
  - repeat inv_step. by eapply choose_card_mut.
Qed.

(** An invariant of [mut] holds in every reachable world. *)
Lemma reachable_invariant (P : list Node → Prop) :
  P [] → (∀ h h', P h → mut h h' → P h') →
  ∀ w, reachable w → P (heap w).
Proof.
  intros Hinit Hstep w Hw. induction Hw as [|w c w' _ IH Hrun]; [done|].
  apply run_mut in Hrun. revert IH.
  induction Hrun; eauto.
Qed.

Lemma reachable_run_all cs w u w' :
  reachable w → run_all cs w = Done u w' → reachable w'.
Proof.
  revert w. induction cs as [|c cs IH]; intros w Hw Hr; simpl in Hr.
  - by apply ret_Done in Hr as [_ <-].
  - apply bind_Done in Hr as ([] & w1 & Hc & Hr).
    eapply IH; [|done]. by eapply reach_call.
Qed.

(** ** Invariants of the heap *)

Lemma init_node_fresh (p : F) par (n := init_node p par : Node) :
  visits n = 0 ∧ results n = [] ∧ children n = [].
Proof. done. Qed.

Lemma consistent_mut h h' : consistent h → mut h h' → consistent h'.
Proof.
  intros Hc Hm j m. destruct Hm as [h p par _|h i n r Hn|h i n a c Hn _].
  - intros [[_ Hj]|[_ <-]]%lookup_snoc_Some; [by eapply Hc|done].
  - intros [(<- & <- & _)|[_ Hj]]%list_lookup_insert_Some; [|by eapply Hc].
    simpl. rewrite length_app. simpl. f_equal. by eapply Hc.
  - intros [(<- & <- & _)|[_ Hj]]%list_lookup_insert_Some; [|by eapply Hc].
    simpl. by eapply Hc.
Qed.

Lemma distinct_children_mut h h' :
  distinct_children h → mut h h' → distinct_children h'.
Proof.
  intros Hd Hm j m. destruct Hm as [h p par _|h i n r Hn|h i n a c Hn Ha].
  - intros [[_ Hj]|[_ <-]]%lookup_snoc_Some; [by eapply Hd|]. constructor.
  - intros [(<- & <- & _)|[_ Hj]]%list_lookup_insert_Some; [|by eapply Hd].
    simpl. by eapply Hd.
  - intros [(<- & <- & _)|[_ Hj]]%list_lookup_insert_Some; [|by eapply Hd].
    simpl. rewrite fmap_app. apply NoDup_app. split; [by eapply Hd|].
    split; [|apply NoDup_singleton].
    intros x Hx ->%list_elem_of_singleton. by apply Ha.
Qed.

Lemma wf_parents_mut h h' : wf_parents h → mut h h' → wf_parents h'.
Proof.
  intros Hw Hm j m q. destruct Hm as [h p par Hp|h i n r Hn|h i n a c Hn _].
  - intros [[_ Hj]|[-> <-]]%lookup_snoc_Some; [by eapply Hw|]. apply Hp.
  - intros [(<- & <- & _)|[_ Hj]]%list_lookup_insert_Some; simpl;
      by eapply Hw.
  - intros [(<- & <- & _)|[_ Hj]]%list_lookup_insert_Some; simpl;
      by eapply Hw.
Qed.

Lemma reachable_wf_parents w : reachable w → wf_parents (heap w).
Proof.
  apply (reachable_invariant wf_parents); [|apply wf_parents_mut].
  by intros i n p Hi.
Qed.

(** Each call keeps [visits == len(results)], from whatever heap on
    which it holds. *)
Lemma run_consistent c w u w' :
  consistent (heap w) → run c w = Done u w' → consistent (heap w').
Proof.
  intros Hc Hr%run_mut. induction Hr; eauto using consistent_mut.
Qed.

Lemma run_distinct_children c w u w' :
  distinct_children (heap w) → run c w = Done u w' →
  distinct_children (heap w').
Proof.
  intros Hc Hr%run_mut. induction Hr; eauto using distinct_children_mut.
Qed.

(** ** The path of [backpropagate] *)

Lemma on_path_le h L i : wf_parents h → on_path h L i → i ≤ L.
Proof.
  intros Hwf Hp. induction Hp as [|x y z (n & Hn & Hpar) _ IH]; [done|].
  specialize (Hwf _ _ _ Hn Hpar). lia.
Qed.

Lemma is_parent_visited h j m r i p :
  h !! j = Some m →
  is_parent (<[j := visited r m]> h) i p ↔ is_parent h i p.
Proof.
  intros Hm. unfold is_parent. split.
  - intros (n & Hn & Hp). apply list_lookup_insert_Some in Hn
      as [(<- & <- & _)|[_ Hn]]; eauto.
  - intros (n & Hn & Hp). destruct (decide (j = i)) as [->|Hne].
    + assert (n = m) as -> by congruence.
      exists (visited r m). split; [|done].
      apply list_lookup_insert_eq. by eapply lookup_lt_Some.
    + exists n. by rewrite list_lookup_insert_ne.
Qed.

Lemma on_path_visited h j m r L i :
  h !! j = Some m →
  on_path (<[j := visited r m]> h) L i ↔ on_path h L i.
Proof.
  intros Hm. split; apply rtc_subrel; intros x y;
    by apply is_parent_visited.
Qed.

Lemma on_path_inv h L i n :
  h !! L = Some n → on_path h L i →
  i = L ∨ ∃ p, parent n = Some p ∧ on_path h p i.
Proof.
  intros Hn [->|(y & (n' & Hn' & Hp) & Hrtc)]%rtc_inv; [by left|].
  right. exists y. by simplify_eq.
Qed.

Lemma backpropagate_spec L : ∀ fuel r w,
  wf_parents (heap w) → L < length (heap w) → L < fuel →
  ∃ w', backpropagate fuel L r w = Done () w' ∧
    rng w' = rng w ∧ stdout w' = stdout w ∧
    (∀ i n, heap w !! i = Some n → on_path (heap w) L i →
            heap w' !! i = Some (visited r n)) ∧
    (∀ i, ¬ on_path (heap w) L i → heap w' !! i = heap w !! i).
Proof.
  induction L as [L IH] using lt_wf_ind. intros fuel r w Hwf Hlt Hfuel.
  destruct fuel as [|fuel]; [lia|].
  destruct (lookup_lt_is_Some_2 _ _ Hlt) as [n Hn].
  rewrite (backpropagate_unfold _ _ _ _ n Hn). simpl.
  destruct (parent n) as [p|] eqn:Hp.
  - pose proof (Hwf _ _ _ Hn Hp) as HpL.
    destruct (IH p HpL fuel r
                (set_heap (<[L := visited r n]> (heap w)) w))
      as (w' & Hrun & Hrng & Hout & Hon & Hoff); simpl.
    { eapply wf_parents_mut; [done|]. by constructor. }
    { rewrite length_insert. lia. }
    { lia. }
    simpl in *. exists w'. split_and!; [done..| |].
    + intros i m Hm Hpath.
      destruct (on_path_inv _ _ _ n Hn Hpath) as [Heq|(q & Hq & Hpath')].
      * subst i. assert (m = n) as -> by congruence. rewrite Hoff.
        -- by apply list_lookup_insert_eq.
        -- intros Hlp%on_path_visited; [|done].
           apply on_path_le in Hlp; [lia|done].
      * assert (q = p) as -> by congruence.
        apply Hon; [|by apply on_path_visited].
        apply on_path_le in Hpath' as Hle; [|done].
        by rewrite list_lookup_insert_ne by lia.
    + intros i Hni. rewrite Hoff.
      * apply list_lookup_insert_ne. intros ->. apply Hni. apply rtc_refl.
      * intros Hpi%on_path_visited; [|done]. apply Hni.
        eapply rtc_l; [|done]. by exists n.
  - eexists. split_and!; [done..| |]; simpl.
    + intros i m Hm Hpath.
      destruct (on_path_inv _ _ _ n Hn Hpath) as [Heq|(q & Hq & _)].
      * subst i. assert (m = n) as -> by congruence.
        by apply list_lookup_insert_eq.
      * congruence.
    + intros i Hni. apply list_lookup_insert_ne. intros ->.
      apply Hni. apply rtc_refl.
Qed.

(** ** Picking the first greatest item *)

Lemma first_max_snoc_keep {A} (key : A → F) seen b i x :
  seen !! i = Some b → first_max key seen i →
  f_gt (key x) (key b) = false →
  first_max key (seen ++ [x]) i.
Proof.
  intros Hb (b' & Hb' & Hmax & Hfirst) Hx.
  assert (b' = b) as -> by congruence.
  exists b. split_and!.
  - by apply lookup_app_l_Some.
  - intros j y [[_ Hj]|[_ <-]]%lookup_snoc_Some; [by eapply Hmax|done].
  - intros j y Hji Hj. apply lookup_lt_Some in Hb.
    rewrite lookup_app_l in Hj by lia. by eapply Hfirst.
Qed.

Lemma first_max_snoc_take {A} (key : A → F) seen b i x :
  seen !! i = Some b → first_max key seen i →
  strict_weak (key <$> (seen ++ [x])) →
  f_gt (key x) (key b) = true →
  first_max key (seen ++ [x]) (length seen).
Proof.
  intros Hb (b' & Hb' & Hmax & Hfirst) Hsw Hx.
  assert (b' = b) as -> by congruence.
  assert (Hin : ∀ y, y ∈ seen ++ [x] → key y ∈ key <$> (seen ++ [x]))
    by (intros; by apply list_elem_of_fmap_2).
  assert (Hbin : b ∈ seen ++ [x]).
  { apply elem_of_app. left. by eapply list_elem_of_lookup_2. }
  assert (Hxin : x ∈ seen ++ [x]) by (apply elem_of_app; right; by left).
  exists x. split_and!.
  - by apply list_lookup_middle.
  - intros j y [[_ Hj]|[_ <-]]%lookup_snoc_Some.
    + destruct (f_gt (key y) (key x)) eqn:Hyx; [|done].
      assert (Hyin : y ∈ seen ++ [x]).
      { apply elem_of_app. left. by eapply list_elem_of_lookup_2. }
      destruct (Hsw (key y) (key x) (key b)) as (_ & Htrans & _); auto.
      rewrite (Hmax j y Hj) in Htrans. by specialize (Htrans Hyx Hx).
    + by destruct (Hsw (key x) (key x) (key x)) as (? & _); auto.
  - intros j y Hlt Hj. rewrite lookup_app_l in Hj by done.
    assert (Hyin : y ∈ seen ++ [x]).
    { apply elem_of_app. left. by eapply list_elem_of_lookup_2. }
    destruct (Hsw (key x) (key b) (key y)) as (_ & _ & Hweak); auto.
    apply Hweak; [done|]. by eapply Hmax.
Qed.

Lemma max_from_first_max {A} (key : A → F) rest : ∀ seen b i,
  seen !! i = Some b → first_max key seen i →
  strict_weak (key <$> (seen ++ rest)) →
  ∃ j, first_max key (seen ++ rest) j ∧
       (seen ++ rest) !! j = Some (max_from key b rest).
Proof.
  induction rest as [|x rest IH]; intros seen b i Hb Hfm Hsw.
  - exists i. rewrite app_nil_r. done.
  - simpl. rewrite (cons_middle x seen rest), app_assoc in Hsw |- *.
    assert (Hsw1 : strict_weak (key <$> (seen ++ [x]))).
    { intros a1 a2 a3 H1 H2 H3. apply Hsw; rewrite fmap_app;
        apply elem_of_app; by left. }
    destruct (f_gt (key x) (key b)) eqn:Hx.
    + apply (IH (seen ++ [x]) x (length seen)); [|by eapply first_max_snoc_take|done].
      by apply list_lookup_middle.
    + apply (IH (seen ++ [x]) b i); [|by eapply first_max_snoc_keep|done].
      by apply lookup_app_l_Some.
Qed.

(** [max(seq, key)] returns the first item with the greatest key. *)
Lemma max_from_spec {A} (key : A → F) b rest :
  strict_weak (key <$> (b :: rest)) →
  ∃ j, first_max key (b :: rest) j ∧
       (b :: rest) !! j = Some (max_from key b rest).
Proof.
  intros Hsw. apply (max_from_first_max key rest [b] b 0); [done| |done].
  exists b. split_and!; [done| |intros; lia].
  intros [|j] y Hj; [|done]. injection Hj as <-.
  by destruct (Hsw (key b) (key b) (key b)) as (? & _); try left.
Qed.

(** With every child legal, the loop of [select] is [max] on the scores. *)
Lemma ucb_loop_max p logt actions kids b :
  Forall (λ k, k.1.1 ∈ actions) kids →
  ucb_loop p logt actions kids (ucb_score p logt b.2) (Some b.1) =
    Some (max_from (λ k, ucb_score p logt k.2) b kids).1.
Proof.
  revert b. induction kids as [|[[a c] m] kids IH]; intros b Hall; [done|].
  apply Forall_cons in Hall as [Ha Hall]. simpl in *.
  rewrite bool_decide_eq_true_2 by done.
  destruct (f_gt _ _); [|by apply IH]. by apply (IH (a, c, m)).
Qed.

Lemma ucb_loop_first p logt actions k kids :
  Forall (λ k, k.1.1 ∈ actions) (k :: kids) →
  f_gt (ucb_score p logt k.2) f_neg_inf = true →
  ucb_loop p logt actions (k :: kids) f_neg_inf None =
    Some (max_from (λ k, ucb_score p logt k.2) k kids).1.
Proof.
  intros [Ha Hall]%Forall_cons Hgt. destruct k as [[a c] m]. simpl in *.
  rewrite bool_decide_eq_true_2, Hgt by done.
  by apply (ucb_loop_max _ _ _ _ (a, c, m)).
Qed.

(** With no child legal, the loop picks nothing. *)
Lemma ucb_loop_none p logt actions kids :
  Forall (λ k, k.1.1 ∉ actions) kids →
  ucb_loop p logt actions kids f_neg_inf None = None.
Proof.
  induction kids as [|[[a c] m] kids IH]; intros Hall; [done|].
  apply Forall_cons in Hall as [Ha Hall]. simpl in *.
  rewrite bool_decide_eq_false_2 by done. by apply IH.
Qed.

(** ** The children read by [select] and [get_best] *)

Lemma deref_fst h l ks : deref h l = Some ks → ks.*1 = l.
Proof.
  intros Hd. eapply mapM_fmap_Some_inv; [exact Hd|].
  intros [a c] y Hy. simpl in Hy. destruct (h !! c); by simplify_eq/=.
Qed.

Lemma deref_actions h l ks : deref h l = Some ks → ks.*1.*1 = l.*1.
Proof. by intros ->%deref_fst. Qed.

Lemma deref_Forall h l ks (P : Action → Prop) :
  deref h l = Some ks → Forall (λ ac, P ac.1) l → Forall (λ k, P k.1.1) ks.
Proof.
  intros <-%deref_fst Hall. apply Forall_forall. intros k Hk.
  eapply Forall_forall in Hall; [exact Hall|]. by apply list_elem_of_fmap_2.
Qed.

Lemma deref_nil h l ks : deref h l = Some ks → l = [] ↔ ks = [].
Proof. intros <-%deref_fst. by destruct ks. Qed.

(** ** One level of [select] *)

Lemma get_node_eq r w n : heap w !! r = Some n → get_node r w = Done n w.
Proof. intros Hn. by apply get_node_Done. Qed.

Lemma get_kids_eq n w ks :
  deref (heap w) (children n) = Some ks → get_kids n w = Done ks w.
Proof. intros Hk. by apply get_kids_Done. Qed.

Lemma select_ended fuel self state w :
  ended state = true →
  select (S fuel) self state w =
    (backpropagate fuel self (score self state);; mret self) w.
Proof. intros He. simpl. by rewrite He. Qed.

Lemma select_expand fuel self state w n :
  ended state = false → heap w !! self = Some n →
  expand_triggered n (get_actions state) = true →
  select (S fuel) self state w = expand fuel self state (get_actions state) w.
Proof.
  intros He Hn Hx. simpl. rewrite He.
  rewrite (bind_eq _ _ w n w) by by apply get_node_eq.
  by rewrite Hx.
Qed.

Lemma select_pick fuel self state w n kids pick :
  ended state = false → heap w !! self = Some n →
  expand_triggered n (get_actions state) = false →
  deref (heap w) (children n) = Some kids →
  ucb_loop (param n) (log_total (total_visits kids)) (get_actions state) kids
    f_neg_inf None = Some pick →
  select (S fuel) self state w = descend fuel state pick w.
Proof.
  intros He Hn Hx Hk Hloop. simpl. rewrite He.
  rewrite (bind_eq _ _ w n w) by by apply get_node_eq.
  rewrite Hx. rewrite (bind_eq _ _ w kids w) by by apply get_kids_eq.
  by rewrite Hloop.
Qed.

Lemma select_no_pick fuel self state w n kids :
  ended state = false → heap w !! self = Some n →
  expand_triggered n (get_actions state) = false →
  deref (heap w) (children n) = Some kids →
  ucb_loop (param n) (log_total (total_visits kids)) (get_actions state) kids
    f_neg_inf None = None →
  select (S fuel) self state w =
    (pick ← fallback self n (get_actions state); descend fuel state pick) w.
Proof.
  intros He Hn Hx Hk Hloop. simpl. rewrite He.
  rewrite (bind_eq _ _ w n w) by by apply get_node_eq.
  rewrite Hx. rewrite (bind_eq _ _ w kids w) by by apply get_kids_eq.
  by rewrite Hloop.
Qed.

(** The loop of [select] only looks at the children whose action is
    legal. *)
Lemma ucb_loop_filter p logt actions kids bs b :
  ucb_loop p logt actions kids bs b =
  ucb_loop p logt actions (filter (λ k, k.1.1 ∈ actions) kids) bs b.
Proof.
  revert bs b. induction kids as [|[[a c] m] kids IH]; intros bs b; [done|].
  rewrite filter_cons. simpl. case_bool_decide as Ha.
  - rewrite decide_True by done. simpl. rewrite bool_decide_eq_true_2 by done.
    destruct (f_gt _ _); apply IH.
  - rewrite decide_False by done. apply IH.
Qed.

(** [select] descends into the first legal child with the greatest score,
    when the scores of the legal children are numbers above [-inf]. *)
Lemma select_first_max fuel self state w n kids :
  ended state = false → heap w !! self = Some n →
  expand_triggered n (get_actions state) = false →
  deref (heap w) (children n) = Some kids →
  let cands := filter (λ k, k.1.1 ∈ get_actions state) kids in
  cands ≠ [] →
  strict_weak (ucb1 (param n) kids <$> cands) →
  Forall (λ k, f_gt (ucb1 (param n) kids k) f_neg_inf = true) cands →
  ∃ i k, first_max (ucb1 (param n) kids) cands i ∧ cands !! i = Some k ∧
    select (S fuel) self state w = descend fuel state k.1 w.
Proof.
  intros He Hn Hx Hk cands Hne Hsw Hgt.
  destruct cands as [|k0 rest] eqn:Hc; [done|].
  destruct (max_from_spec (ucb1 (param n) kids) k0 rest Hsw) as (i & Hfm & Hi).
  exists i, (max_from (ucb1 (param n) kids) k0 rest). split_and!; [done..|].
  eapply select_pick; [done..|].
  rewrite ucb_loop_filter. fold cands. rewrite Hc.
  apply ucb_loop_first.
  - rewrite <- Hc. apply Forall_forall. by intros k [? _]%list_elem_of_filter.
  - by apply Forall_cons in Hgt as [? _].
Qed.


Lemma filter_none {A} (P : A → Prop) `{∀ x, Decision (P x)} (l : list A) :
  Forall (λ x, ¬ P x) l → filter P l = [].
Proof.
  induction 1 as [|x l Hx _ IH]; [done|].
  by rewrite filter_cons_False, IH.
Qed.


(** ** The fallback of [select] *)

Lemma fallback_eq self n actions w a :
  heap w !! self = Some n →
  actions !! (tape (rng w) (pos (rng w)) mod length actions) = Some a →
  let out := stdout w ++
    ["[DEBUG] no UCB pick; legal actions = " +:+ str_actions actions;
     "[DEBUG] children actions    = " +:+ str_actions (children n).*1] in
  fallback self n actions w =
    match list_find (λ ac, ac.1 = a) (children n) with
    | Some (_, (_, c)) => Done (a, c) (mkWorld (heap w) (advance (rng w)) out)
    | None =>
        Done (a, length (heap w))
          (mkWorld (<[self := append_child a (length (heap w)) n]>
                      (heap w ++ [init_node (param n) (Some self)]))
                   (advance (rng w)) out)
    end.
Proof.
  intros Hn Ha out. unfold fallback.
  rewrite (bind_eq _ _ w ()
    (mkWorld (heap w) (rng w) (stdout w ++
       ["[DEBUG] no UCB pick; legal actions = " +:+ str_actions actions])))
    by done.
  rewrite (bind_eq _ _ _ () (mkWorld (heap w) (rng w) out)).
  2:{ unfold print, out. simpl. by rewrite <- app_assoc. }
  rewrite (bind_eq _ _ _ a (mkWorld (heap w) (advance (rng w)) out)).
  2:{ apply choice_Done. split_and!; [|done..]. intros ->. done. }
  destruct (list_find _ _) as [[i [a' c]]|]; [done|].
  rewrite (bind_eq _ _ _ (length (heap w))
    (mkWorld (heap w ++ [init_node (param n) (Some self)])
             (advance (rng w)) out)) by done.
  rewrite (bind_eq _ _ _ ()
    (mkWorld (<[self := append_child a (length (heap w)) n]>
                (heap w ++ [init_node (param n) (Some self)]))
             (advance (rng w)) out)); [done|].
  unfold modify_node. simpl. by rewrite (lookup_app_l_Some _ _ _ _ Hn).
Qed.

(** ** [get_best] *)

(** C6. On a state that offers some action, [get_best] on a node without
    children returns the legal action at the position drawn by the
    generator (one draw, uniform when the draws are); on a node with
    children it returns the action of the first child whose key is the
    greatest, the key being [sum(results) / visits] for a visited child and
    [-inf] for an unvisited one, and changes nothing.  So an unvisited
    child is not returned when some visited child has an average above
    [-inf].  The keys are taken to be compared as numbers are. *)
Theorem get_best_returns_best_average self state w n kids :
  get_actions state ≠ [] →
  heap w !! self = Some n →
  deref (heap w) (children n) = Some kids →
  (children n = [] →
     ∃ a, get_actions state
            !! (tape (rng w) (pos (rng w)) mod length (get_actions state))
          = Some a ∧
       get_best self state w =
         Done a (mkWorld (heap w) (advance (rng w)) (stdout w))) ∧
  (children n ≠ [] →
     strict_weak (best_key <$> kids) →
     (∀ k : Action * ref * Node,
        best_key k =
          if bool_decide (0 < visits k.2)
          then f_div (f_sum (results k.2)) (of_int (visits k.2))
          else f_neg_inf) ∧
     ∃ i k, first_max best_key kids i ∧ kids !! i = Some k ∧
       get_best self state w = Done k.1.1 w ∧
       ((∃ v, v ∈ kids ∧ 0 < visits v.2 ∧
              f_gt (best_key v) f_neg_inf = true) →
        0 < visits k.2)).
Proof.
  intros Hact Hn Hk.
  assert (Hget : get_best self state w =
    match kids with
    | [] => choice (get_actions state) w
    | k :: kids => Done (max_from best_key k kids).1.1 w
    end).
  { unfold get_best. rewrite (bind_eq _ _ w n w) by by apply get_node_eq.
    pose proof (deref_fst _ _ _ Hk) as Hfst.
    destruct (children n) as [|c cs] eqn:Hc, kids as [|k ks];
      [done|done|done|].
    rewrite (bind_eq _ _ w (k :: ks) w); [done|].
    apply get_kids_eq. by rewrite Hc. }
  split.
  - intros Hnil. apply (deref_nil _ _ _ Hk) in Hnil. subst kids.
    assert (Hlt : tape (rng w) (pos (rng w)) mod length (get_actions state)
                  < length (get_actions state)).
    { apply Nat.mod_upper_bound. by destruct (get_actions state). }
    destruct (lookup_lt_is_Some_2 _ _ Hlt) as [a Ha]. exists a.
    split; [done|]. rewrite Hget. by apply choice_Done.
  - intros Hne Hsw. split; [done|].
    destruct kids as [|k0 rest].
    { destruct Hne. by apply (deref_nil _ _ _ Hk). }
    destruct (max_from_spec best_key k0 rest Hsw) as (i & Hfm & Hi).
    exists i, (max_from best_key k0 rest). split_and!; [done..|].
    intros (v & Hv & Hvis & Hgt).
    destruct (decide (0 < visits (max_from best_key k0 rest).2))
      as [|Hzero]; [done|].
    destruct Hfm as (k' & Hk' & Hmax & _).
    assert (k' = max_from best_key k0 rest) as -> by congruence.
    apply list_elem_of_lookup in Hv as [j Hj].
    specialize (Hmax j v Hj). unfold best_key at 2 in Hmax.
    rewrite bool_decide_eq_false_2 in Hmax by done. congruence.
Qed.

(** ** [choose_card] *)

(** C9. On a state with exactly one legal action [choose_card] returns
    that action, converted by [to_action], and leaves the world as it was:
    no node is constructed, nothing is drawn or printed, whatever the
    number of iterations. *)
Theorem choose_card_single_action fuel agent battle_state w a :
  get_actions battle_state = [a] →
  choose_card fuel agent battle_state w = Done (to_action a battle_state) w.
Proof. intros Ha. unfold choose_card. by rewrite Ha. Qed.

(** ** [expand] *)

Lemma unexplored_nonempty n actions :
  expand_triggered n actions = true → NoDup actions →
  unexplored_of n actions ≠ [].
Proof.
  unfold expand_triggered, unexplored_of.
  intros Hlt%bool_decide_eq_true Hnd Hnil.
  assert (Hsub : actions ⊆+ tried_of n).
  { apply NoDup_submseteq; [done|]. intros a Ha.
    destruct (decide (a ∈ tried_of n)) as [|Hna]; [done|].
    by destruct (filter_nil_not_elem_of _ actions a Hnil Hna). }
  apply submseteq_length in Hsub. unfold tried_of in Hsub.
  rewrite length_fmap in Hsub. lia.
Qed.

(** C10. When [select] sends a node to [expand], the node having fewer
    children than there are legal actions, and the legal actions are
    pairwise distinct, the list of unexplored actions of [expand] is not
    empty and the [random.choice] on it returns one of them: a legal
    action without a child.  (Distinct sibling actions are not needed.) *)
Theorem expand_choice_nonempty fuel self state w n :
  ended state = false →
  heap w !! self = Some n →
  expand_triggered n (get_actions state) = true →
  NoDup (get_actions state) →
  select (S fuel) self state w = expand fuel self state (get_actions state) w ∧
  unexplored_of n (get_actions state) ≠ [] ∧
  ∃ a, choice (unexplored_of n (get_actions state)) w =
         Done a (mkWorld (heap w) (advance (rng w)) (stdout w)) ∧
       a ∈ get_actions state ∧ a ∉ tried_of n.
Proof.
  intros He Hn Hx Hnd. split; [by apply (select_expand _ _ _ _ n)|].
  pose proof (unexplored_nonempty _ _ Hx Hnd) as Hne. split; [done|].
  set (l := unexplored_of n (get_actions state)) in *.
  assert (Hlt : tape (rng w) (pos (rng w)) mod length l < length l).
  { apply Nat.mod_upper_bound. by destruct l. }
  destruct (lookup_lt_is_Some_2 _ _ Hlt) as [a Ha]. exists a.
  split; [by apply choice_Done|].
  apply list_elem_of_lookup_2 in Ha. unfold l, unexplored_of in Ha.
  by apply list_elem_of_filter in Ha as [? ?].
Qed.

(** With no stale child and no two children for one action, a legal
    action without a child does send the node to [expand]. *)
Lemma missing_action_triggers n actions a :
  Forall (λ ac, ac.1 ∈ actions) (children n) → NoDup (tried_of n) →
  a ∈ actions → a ∉ tried_of n →
  expand_triggered n actions = true.
Proof.
  intros Hlegal Hnd Ha Hna. unfold expand_triggered.
  apply bool_decide_eq_true.
  assert (Hsub : a :: tried_of n ⊆+ actions).
  { apply NoDup_submseteq; [by constructor|].
    intros x [->|Hx]%elem_of_cons; [done|].
    unfold tried_of in Hx. apply list_elem_of_fmap in Hx as (ac & -> & Hac).
    by eapply Forall_forall in Hlegal. }
  apply submseteq_length in Hsub. unfold tried_of in Hsub.
  simpl in Hsub. rewrite length_fmap in Hsub. lia.
Qed.

(** ** The invariants of the tree *)

(** C3. In every world reached from the empty heap by constructing nodes
    and calling [step], [select], [expand], [rollout], [backpropagate],
    [get_best], [print_tree] and [choose_card], every node has as many
    visits as results; each of these calls keeps it so, and a node is
    constructed with no visit and no result. *)
Theorem visits_match_results w :
  reachable w →
  (∀ i n, heap w !! i = Some n → visits n = length (results n)) ∧
  (∀ c u w', run c w = Done u w' →
     ∀ i n, heap w' !! i = Some n → visits n = length (results n)) ∧
  (∀ (p : F) par,
     visits (init_node p par : Node) = 0 ∧
     results (init_node p par : Node) = []).
Proof.
  intros Hw.
  assert (Hc : consistent (heap w)).
  { apply (reachable_invariant consistent); [|apply consistent_mut|done].
    by intros i n Hi. }
  split_and!; [done| |done].
  intros c u w' Hrun. by apply (run_consistent c w u w').
Qed.

(** C7. In every world reached from the empty heap by constructing nodes
    and calling the methods, no two entries of a [children] list carry the
    same action, and each call keeps it so: [expand] appends a child for
    an action that is not among the children's, and the fallback of
    [select] appends one only when no child carries the action drawn. *)
Theorem children_actions_distinct w :
  reachable w →
  (∀ i n, heap w !! i = Some n → NoDup (children n).*1) ∧
  (∀ c u w', run c w = Done u w' →
     ∀ i n, heap w' !! i = Some n → NoDup (children n).*1).
Proof.
  intros Hw.
  assert (Hd : distinct_children (heap w)).
  { apply (reachable_invariant distinct_children);
      [|apply distinct_children_mut|done].
    by intros i n Hi. }
  split; [done|].
  intros c u w' Hrun. by apply (run_distinct_children c w u w').
Qed.

(** C4. In every world reached from the empty heap by constructing nodes
    and calling the methods, for a node [L] and a result [r],
    [backpropagate] from [L], given fuel for the depth of [L], returns;
    it adds one visit and appends [r] once to [L] and to each of its
    ancestors up to the root, leaving their children, parent and parameter
    as they were, and leaves every other node, the generator and the
    output unchanged. *)
Theorem backpropagate_updates_path fuel L r w :
  reachable w →
  L < length (heap w) →
  L < fuel →
  ∃ w', backpropagate fuel L r w = Done () w' ∧
    rng w' = rng w ∧ stdout w' = stdout w ∧
    (∀ i n, heap w !! i = Some n → on_path (heap w) L i →
       heap w' !! i =
         Some (mkNode (children n) (parent n) (results n ++ [r])
                      (visits n + 1) (param n))) ∧
    (∀ i, ¬ on_path (heap w) L i → heap w' !! i = heap w !! i).
Proof.
  intros Hw HL Hfuel.
  apply backpropagate_spec; [|done..]. by apply reachable_wf_parents.
Qed.

Lemma strict_weakb_sound (vs : list F) :
  strict_weakb vs = true → strict_weak vs.
Proof.
  unfold strict_weakb. intros Hb x y z Hx Hy Hz.
  rewrite forallb_forall in Hb. apply list_elem_of_In, Hb in Hx.
  rewrite forallb_forall in Hx. apply list_elem_of_In, Hx in Hy.
  rewrite forallb_forall in Hy. apply list_elem_of_In, Hy in Hz.
  destruct (f_gt x x), (f_gt x y), (f_gt y z), (f_gt x z), (f_gt z y);
    simpl in Hz; try discriminate; auto.
Qed.

(** * Further properties of the methods *)

(** ** [rollout] *)

(** X1. A rollout that returns has not touched the tree or the output, and
    its result is the score of a state that has ended; on a state that has
    already ended it is the score of that state and nothing is drawn. *)
Theorem rollout_returns_final_score fuel self state w r w' :
  rollout fuel self state w = Done r w' →
  heap w' = heap w ∧ stdout w' = stdout w ∧
  (∃ final, ended final = true ∧ r = state_score final) ∧
  (ended state = true → r = state_score state ∧ w' = w).
Proof.
  revert state w. induction fuel as [|fuel IH]; intros state w Hr;
    [discriminate Hr|].
  simpl in Hr. destruct (ended state) eqn:He.
  - apply ret_Done in Hr as [<- <-]. split_and!; [done..| |done].
    by exists state.
  - apply bind_Done in Hr as (a & w1 & (_ & _ & ->)%choice_Done & Hr).
    apply bind_Done in Hr as (s1 & w2 & [-> ->]%with_rng_Done & Hr).
    apply IH in Hr as (Hh & Ho & Hfinal & _). simpl in *.
    split_and!; [done..|]. intros Ht; discriminate Ht.
Qed.

(** ** No legal action *)

(** X2. On a state that has not ended and offers no action, [select]
    fails with the [IndexError] of [random.choice] at any node, and so do
    [rollout] and, on a node without children, [get_best]. *)
Theorem no_action_raises_index_error fuel self state w n kids :
  ended state = false →
  get_actions state = [] →
  heap w !! self = Some n →
  deref (heap w) (children n) = Some kids →
  select (S fuel) self state w = Fail IndexError ∧
  rollout (S fuel) self state w = Fail IndexError ∧
  (children n = [] → get_best self state w = Fail IndexError).
Proof.
  intros He Ha Hn Hk. split_and!.
  - rewrite (select_no_pick fuel self state w n kids); [|done|done| |done|].
    + rewrite Ha. done.
    + rewrite Ha. unfold expand_triggered. apply bool_decide_eq_false.
      simpl. lia.
    + apply ucb_loop_none. rewrite Ha. apply Forall_forall.
      intros k _. apply not_elem_of_nil.
  - simpl. by rewrite He, Ha.
  - intros Hc. unfold get_best.
    rewrite (bind_eq _ _ w n w) by by apply get_node_eq.
    by rewrite Hc, Ha.
Qed.

(** ** [expand] with nothing to explore *)

(** X3. Called on a node that has a child for each of the available
    actions, [expand] fails with the [IndexError] of [random.choice]. *)
Theorem expand_without_unexplored_fails fuel self state available w n :
  heap w !! self = Some n →
  Forall (λ a, a ∈ tried_of n) available →
  expand fuel self state available w = Fail IndexError.
Proof.
  intros Hn Hall. unfold expand.
  rewrite (bind_eq _ _ w n w) by by apply get_node_eq.
  unfold unexplored_of. rewrite filter_none; [done|].
  eapply Forall_impl; [done|]. intros a Ha Hna. by apply Hna.
Qed.

(** ** What [get_best] can return *)

Lemma max_from_elem {A} (key : A → F) b l : max_from key b l ∈ b :: l.
Proof.
  revert b. induction l as [|x l IH]; intros b; simpl; [by left|].
  destruct (f_gt _ _).
  - right. apply IH.
  - specialize (IH b). apply elem_of_cons in IH as [->|IH]; [by left|].
    by do 2 right.
Qed.

Lemma get_best_known self state w n a w' :
  heap w !! self = Some n →
  get_best self state w = Done a w' →
  heap w' = heap w ∧ stdout w' = stdout w ∧
  (children n = [] → a ∈ get_actions state ∧ rng w' = advance (rng w)) ∧
  (children n ≠ [] → a ∈ tried_of n ∧ w' = w).
Proof.
  intros Hn Hg. unfold get_best in Hg.
  rewrite (bind_eq _ _ w n w) in Hg by by apply get_node_eq.
  destruct (children n) as [|c cs] eqn:Hc.
  - apply choice_Done in Hg as (_ & Ha%list_elem_of_lookup_2 & ->).
    by split_and!.
  - apply bind_Done in Hg as (kids & w1 & [Hk ->]%get_kids_Done & Hg).
    rewrite Hc in Hk.
    apply bind_Done in Hg as (best & w2 & Hmax & [<- <-]%ret_Done).
    destruct kids as [|k ks]; [discriminate Hmax|].
    apply ret_Done in Hmax as [<- <-]. split_and!; [done..|].
    intros _. split; [|done]. unfold tried_of.
    rewrite Hc, <- (deref_fst _ _ _ Hk).
    apply list_elem_of_fmap_2, list_elem_of_fmap_2, max_from_elem.
Qed.

(** X4. [get_best] changes neither the tree nor the output.  On a node
    without children it returns a legal action of the state and draws
    once; on a node with children it returns the action of one of them and
    draws nothing, whatever the floats are. *)
Theorem get_best_returns_known_action self state w n a w' :
  heap w !! self = Some n →
  get_best self state w = Done a w' →
  heap w' = heap w ∧ stdout w' = stdout w ∧
  (children n = [] → a ∈ get_actions state ∧ rng w' = advance (rng w)) ∧
  (children n ≠ [] → a ∈ tried_of n ∧ w' = w).
Proof. apply get_best_known. Qed.

(** ** [print_tree] reads only *)

Lemma for_each_output {A} (l : list A) (body : A → Mo unit) w u w' :
  (∀ x w1 u1 w2, x ∈ l → body x w1 = Done u1 w2 →
                 stdout w1 `prefix_of` stdout w2) →
  for_each l body w = Done u w' →
  stdout w `prefix_of` stdout w'.
Proof.
  revert w. induction l as [|x l IH]; intros w Hbody Hf; simpl in Hf.
  - by apply ret_Done in Hf as [_ <-].
  - apply bind_Done in Hf as (u1 & w1 & Hx & Hf).
    apply Hbody in Hx; [|by left]. etrans; [done|].
    apply IH; [|done]. intros ???? Hin. apply Hbody. by right.
Qed.

Lemma print_tree_output fuel self indent w u w' :
  print_tree fuel self indent w = Done u w' →
  stdout w `prefix_of` stdout w'.
Proof.
  revert self indent w u w'.
  induction fuel as [|fuel IH]; intros self indent w u w' Hp;
    [discriminate Hp|].
  simpl in Hp.
  apply bind_Done in Hp as (n & w1 & [_ ->]%get_node_Done & Hp).
  eapply for_each_output; [|done].
  intros ac w1 u1 w2 _ Hb.
  apply bind_Done in Hb as (m & w3 & [_ ->]%get_node_Done & Hb).
  apply bind_Done in Hb as (u2 & w4 & ->%print_Done & Hb).
  apply IH in Hb. simpl in Hb. etrans; [|done]. by apply prefix_app_r.
Qed.

(** X5. [print_tree] changes neither the tree nor the generator, and only
    adds lines at the end of the output; on a node without children it
    prints nothing. *)
Theorem print_tree_reads_only fuel self indent w u w' :
  print_tree fuel self indent w = Done u w' →
  heap w' = heap w ∧ rng w' = rng w ∧ stdout w `prefix_of` stdout w' ∧
  (∀ n, heap w !! self = Some n → children n = [] → w' = w).
Proof.
  intros Hp. pose proof (print_tree_frame _ _ _ _ _ _ Hp) as [Hh Hg].
  pose proof (print_tree_output _ _ _ _ _ _ Hp) as Ho.
  split_and!; [done..|]. intros n Hn Hc.
  destruct fuel as [|fuel]; [discriminate Hp|]. simpl in Hp.
  rewrite (bind_eq _ _ w n w) in Hp by by apply get_node_eq.
  rewrite Hc in Hp. by apply ret_Done in Hp as [_ <-].
Qed.

(** ** Nodes are kept *)

Lemma extends_refl h : extends h h.
Proof. intros i n Hn. exists n. by split_and!. Qed.

Lemma extends_trans h1 h2 h3 : extends h1 h2 → extends h2 h3 → extends h1 h3.
Proof.
  intros H12 H23 i n Hn.
  destruct (H12 i n Hn) as (n2 & Hn2 & Hp2 & Hq2 & Hc2 & Hr2 & Hv2).
  destruct (H23 i n2 Hn2) as (n3 & Hn3 & Hp3 & Hq3 & Hc3 & Hr3 & Hv3).
  exists n3. split_and!; [done|congruence|congruence| | |lia];
    by etrans.
Qed.

Lemma mut_extends h h' : mut h h' → extends h h'.
Proof.
  intros [h0 p par _|h0 i m r Hm|h0 i m a c Hm _] j n Hn.
  - exists n. split_and!; [by apply lookup_app_l_Some|done..].
  - destruct (decide (i = j)) as [->|Hne].
    + assert (m = n) as -> by congruence. exists (visited r n).
      split_and!; [|done|done|done| |simpl; lia].
      * apply list_lookup_insert_eq. by eapply lookup_lt_Some.
      * by apply prefix_app_r.
    + exists n. rewrite list_lookup_insert_ne by done. by split_and!.
  - destruct (decide (i = j)) as [->|Hne].
    + assert (m = n) as -> by congruence. exists (append_child a c n).
      split_and!; [|done|done| |done|done].
      * apply list_lookup_insert_eq. by eapply lookup_lt_Some.
      * by apply prefix_app_r.
    + exists n. rewrite list_lookup_insert_ne by done. by split_and!.
Qed.

(** X6. No call deletes or replaces a node: after a call every node is
    still there with the parent and the parameter it had, its children and
    results are the old ones with possibly more at the end, and its visits
    have not decreased. *)
Theorem calls_keep_nodes c w u w' :
  run c w = Done u w' →
  extends (heap w) (heap w') ∧ length (heap w) ≤ length (heap w').
Proof.
  intros Hr%run_mut.
  assert (He : extends (heap w) (heap w')).
  { induction Hr as [|h1 h2 h3 Hm _ IH]; [apply extends_refl|].
    eapply extends_trans; [by apply mut_extends|done]. }
  split; [done|].
  destruct (decide (length (heap w) ≤ length (heap w'))) as [|Hlt]; [done|].
  destruct (lookup_lt_is_Some_2 (heap w) (length (heap w'))) as [n Hn];
    [lia|].
  destruct (He _ _ Hn) as (n' & Hn'%lookup_lt_Some & _). lia.
Qed.

(** ** The shape of the tree *)

Lemma backpropagate_grow fuel self r w u w' :
  backpropagate fuel self r w = Done u w' → rtc grow (heap w) (heap w').
Proof.
  revert self w. induction fuel as [|fuel IH]; intros self w Hb;
    [discriminate Hb|].
  destruct (heap w !! self) as [n|] eqn:Hn.
  - rewrite (backpropagate_unfold _ _ _ _ n Hn) in Hb. simpl in Hb.
    assert (Hm : grow (heap w) (<[self := visited r n]> (heap w)))
      by by constructor.
    destruct (parent n).
    + apply IH in Hb. by eapply rtc_l.
    + destruct u. injection Hb as <-. by apply rtc_once.
  - by rewrite backpropagate_dangling in Hb.
Qed.

Lemma expand_grow fuel self state available w c w' :
  expand fuel self state available w = Done c w' →
  rtc grow (heap w) (heap w').
Proof.
  unfold expand. intros Hx.
  apply bind_Done in Hx as (n & w0 & [Hn ->]%get_node_Done & Hx).
  apply bind_Done in Hx as (a & w1 & (_ & Ha%list_elem_of_lookup_2 & ->)%choice_Done & Hx).
  apply bind_Done in Hx as (c0 & w2 & [-> ->]%new_node_Done & Hx).
  apply bind_Done in Hx as (u1 & w3 & (m & Hm & ->)%modify_node_Done & Hx).
  apply bind_Done in Hx as (s1 & w4 & [-> ->]%with_rng_Done & Hx).
  apply bind_Done in Hx as (x & w5 & [Hh _]%rollout_frame & Hx).
  apply bind_Done in Hx as (u2 & w6 & Hb%backpropagate_grow & [_ <-]%ret_Done).
  simpl in *. rewrite (lookup_app_l_Some _ _ _ _ Hn) in Hm.
  injection Hm as <-. apply list_elem_of_filter in Ha as [Hna _].
  rewrite Hh in Hb. eapply rtc_l; [|done]. by constructor.
Qed.

Lemma fallback_grow self n actions w pick w' :
  heap w !! self = Some n →
  fallback self n actions w = Done pick w' →
  rtc grow (heap w) (heap w').
Proof.
  unfold fallback. intros Hn Hf.
  apply bind_Done in Hf as (u1 & w1 & ->%print_Done & Hf).
  apply bind_Done in Hf as (u2 & w2 & ->%print_Done & Hf).
  apply bind_Done in Hf as (a & w3 & (_ & _ & ->)%choice_Done & Hf).
  simpl in *.
  destruct (list_find _ _) as [[i [a' c]]|] eqn:Hfind.
  - by apply ret_Done in Hf as [_ <-].
  - apply bind_Done in Hf as (c0 & w4 & [-> ->]%new_node_Done & Hf).
    apply bind_Done in Hf as (u3 & w5 & (m & Hm & ->)%modify_node_Done & [_ <-]%ret_Done).
    simpl in *. rewrite (lookup_app_l_Some _ _ _ _ Hn) in Hm.
    injection Hm as <-. apply rtc_once. constructor; [done|].
    apply list_find_None in Hfind.
    unfold tried_of. intros ([a' c] & -> & Hin)%list_elem_of_fmap.
    by eapply Forall_forall in Hfind.
Qed.

Lemma select_grow fuel self state w r w' :
  select fuel self state w = Done r w' → rtc grow (heap w) (heap w').
Proof.
  revert self state w.
  induction fuel as [|fuel IH]; intros self state w Hs; [discriminate Hs|].
  simpl in Hs. destruct (ended state).
  - apply bind_Done in Hs as (u & w1 & Hb%backpropagate_grow & [_ <-]%ret_Done).
    done.
  - apply bind_Done in Hs as (n & w0 & [Hn ->]%get_node_Done & Hs).
    destruct (expand_triggered _ _); [by eapply expand_grow|].
    apply bind_Done in Hs as (kids & w1 & [Hk ->]%get_kids_Done & Hs).
    apply bind_Done in Hs as (pick & w2 & Hpick & Hs).
    apply bind_Done in Hs as (s1 & w3 & [-> ->]%with_rng_Done & Hs).
    apply IH in Hs. simpl in Hs.
    destruct (ucb_loop _ _ _ _ _ _).
    + by apply ret_Done in Hpick as [_ <-].
    + eapply fallback_grow in Hpick; [|done]. by etrans.
Qed.

Lemma iterate_grow fuel count t battle_state w u w' :
  iterate fuel count t battle_state w = Done u w' →
  rtc grow (heap w) (heap w').
Proof.
  revert w. induction count as [|count IH]; intros w Hi; simpl in Hi.
  - by apply ret_Done in Hi as [_ <-].
  - apply bind_Done in Hi as (s1 & w1 & [-> ->]%with_rng_Done & Hi).
    apply bind_Done in Hi as (u1 & w2 & Hs & Hi). unfold tree_step in Hs.
    apply bind_Done in Hs as (r & w3 & Hs%select_grow & [_ <-]%ret_Done).
    apply IH in Hi. simpl in *. by etrans.
Qed.

Lemma choose_card_grow fuel agent battle_state w e w' :
  choose_card fuel agent battle_state w = Done e w' →
  rtc grow (heap w) (heap w').
Proof.
  unfold choose_card. intros Hc.
  assert (Hgen :
    (t ← new_node (agent_param agent) None;
     iterate fuel (iterations agent) t battle_state;;
     best_action ← get_best t battle_state;
     (if verbose agent then print_tree fuel t 0 else mret ());;
     mret (to_action best_action battle_state)) w = Done e w' →
    rtc grow (heap w) (heap w')).
  { clear Hc. intros Hc.
    apply bind_Done in Hc as (t & w1 & [-> ->]%new_node_Done & Hc).
    apply bind_Done in Hc as (u1 & w2 & Hit%iterate_grow & Hc).
    apply bind_Done in Hc as (b & w3 & [Hg _]%get_best_frame & Hc).
    apply bind_Done in Hc as (u2 & w4 & Hp & [_ <-]%ret_Done).
    assert (Hv : heap w4 = heap w3).
    { destruct (verbose agent).
      - by apply print_tree_frame in Hp as [-> _].
      - by apply ret_Done in Hp as [_ ->]. }
    rewrite Hv, Hg. eapply rtc_l; [|done].
    apply (grow_node _ _ None). by intros. }
  destruct (get_actions battle_state) as [|a [|b l]]; [by auto| |by auto].
  by apply ret_Done in Hc as [_ <-].
Qed.

Lemma run_grow c w u w' : run c w = Done u w' → rtc grow (heap w) (heap w').
Proof.
  destruct c; simpl; intros Hr.
  - destruct par as [r|].
    + apply bind_Done in Hr as (m & w1 & [Hm ->]%get_node_Done & Hr).
      apply bind_Done in Hr as (c & w2 & [-> ->]%new_node_Done & [_ <-]%ret_Done).
      apply rtc_once. apply (grow_node _ _ (Some r)). intros ? [= <-].
      by eapply lookup_lt_Some.
    + apply bind_Done in Hr as (c & w2 & [-> ->]%new_node_Done & [_ <-]%ret_Done).
      apply rtc_once. by apply (grow_node _ _ None).
  - unfold tree_step in Hr.
    by apply bind_Done in Hr as (r & w1 & Hs%select_grow & [_ <-]%ret_Done).
  - by apply bind_Done in Hr as (r & w1 & Hs%select_grow & [_ <-]%ret_Done).
  - by apply bind_Done in Hr as (r & w1 & Hs%expand_grow & [_ <-]%ret_Done).
  - apply bind_Done in Hr as (r & w1 & [Hh _]%rollout_frame & [_ <-]%ret_Done).
    by rewrite Hh.
  - by apply backpropagate_grow in Hr.
  - apply bind_Done in Hr as (r & w1 & [Hh _]%get_best_frame & [_ <-]%ret_Done).
    by rewrite Hh.
  - by apply print_tree_frame in Hr as [-> _].
  - by apply bind_Done in Hr as (r & w1 & Hs%choose_card_grow & [_ <-]%ret_Done).
Qed.

Lemma grow_mut h h' : grow h h' → rtc mut h h'.
Proof.
  intros [h0 p par Hp|h0 i n r Hn|h0 i n a Hn Ha].
  - apply rtc_once. by constructor.
  - apply rtc_once. by constructor.
  - by apply child_mut.
Qed.

Lemma rtc_grow_mut h h' : rtc grow h h' → rtc mut h h'.
Proof.
  induction 1 as [|h1 h2 h3 Hg _ IH]; [done|].
  etrans; [by apply grow_mut|done].
Qed.

(** A node replaced by one with the same parent and parameter is still a
    good target of a link. *)
Lemma link_target_insert h i (n0 n1 : Node) c j p :
  h !! i = Some n0 → parent n1 = parent n0 → param n1 = param n0 →
  (∃ m, h !! c = Some m ∧ parent m = Some j ∧ param m = p) →
  ∃ m, <[i := n1]> h !! c = Some m ∧ parent m = Some j ∧ param m = p.
Proof.
  intros Hn Hpar Hprm (m & Hm & Hpm & Hqm).
  destruct (decide (i = c)) as [->|Hne].
  - assert (m = n0) as -> by congruence. exists n1. split_and!.
    + apply list_lookup_insert_eq. by eapply lookup_lt_Some.
    + congruence.
    + congruence.
  - exists m. by rewrite list_lookup_insert_ne.
Qed.

Lemma linked_grow h h' : linked h → grow h h' → linked h'.
Proof.
  intros Hl Hg.
  destruct Hg as [h0 p par Hp|h0 i n0 r Hn0|h0 i n0 a0 Hn0 Ha0];
    intros j n a c Hj Hac.
  - apply lookup_snoc_Some in Hj as [[_ Hj]|[_ <-]].
    + destruct (Hl _ _ _ _ Hj Hac) as (Hlt & m & Hm & Hpm & Hqm).
      split; [done|]. exists m. split_and!; [|done..].
      by apply lookup_app_l_Some.
    + by apply elem_of_nil in Hac.
  - apply list_lookup_insert_Some in Hj as [(<- & <- & _)|[Hne Hj]].
    + destruct (Hl _ _ _ _ Hn0 Hac) as (Hlt & Htgt). split; [done|].
      by apply (link_target_insert h0 i n0).
    + destruct (Hl _ _ _ _ Hj Hac) as (Hlt & Htgt). split; [done|].
      by apply (link_target_insert h0 i n0).
  - pose proof (lookup_lt_Some _ _ _ Hn0) as Hi.
    assert (Hold : ∀ j' (n' : Node) p' c',
      j' < c' → (∃ m, h0 !! c' = Some m ∧ parent m = Some j' ∧ param m = p') →
      ∃ m, <[i := append_child a0 (length h0) n0]>
             (h0 ++ [init_node (param n0) (Some i)]) !! c' = Some m ∧
           parent m = Some j' ∧ param m = p').
    { intros j' n' p' c' _ (m & Hm & Hpm & Hqm).
      apply (link_target_insert _ i n0); [by apply lookup_app_l_Some|done..|].
      exists m. split_and!; [|done..]. by apply lookup_app_l_Some. }
    apply list_lookup_insert_Some in Hj as [(<- & <- & _)|[Hne Hj]].
    + simpl in Hac. apply elem_of_app in Hac as [Hac|Hac].
      * destruct (Hl _ _ _ _ Hn0 Hac) as (Hlt & Htgt). split; [done|].
        by apply (Hold i n0).
      * apply list_elem_of_singleton in Hac. injection Hac as -> ->.
        split; [done|]. exists (init_node (param n0) (Some i)).
        split_and!; [|done..].
        rewrite list_lookup_insert_ne by lia. by apply list_lookup_middle.
    + apply lookup_snoc_Some in Hj as [[_ Hj]|[_ <-]].
      * destruct (Hl _ _ _ _ Hj Hac) as (Hlt & Htgt). split; [done|].
        by apply (Hold j n).
      * by apply elem_of_nil in Hac.
Qed.

Lemma linked_rtc_grow h h' : linked h → rtc grow h h' → linked h'.
Proof. intros Hl Hg. induction Hg; eauto using linked_grow. Qed.

Lemma wf_parents_rtc_grow h h' : wf_parents h → rtc grow h h' → wf_parents h'.
Proof.
  intros Hw Hg%rtc_grow_mut. induction Hg; eauto using wf_parents_mut.
Qed.

(** X7. In every world reached from the empty heap by constructing nodes
    and calling the methods, the tree is well linked: a child was
    constructed after the node that holds it, names that node as its
    parent and carries the same exploration parameter. *)
Theorem children_are_linked w :
  reachable w →
  ∀ i n a c, heap w !! i = Some n → (a, c) ∈ children n →
    i < c ∧ ∃ m, heap w !! c = Some m ∧ parent m = Some i ∧
                 param m = param n.
Proof.
  intros Hw. change (linked (heap w)).
  induction Hw as [|w c w' _ IH Hrun].
  - intros i n a c Hi. done.
  - apply run_grow in Hrun. by eapply linked_rtc_grow.
Qed.

(** ** One visit per search *)

Lemma rtc_mut_extends h h' : rtc mut h h' → extends h h'.
Proof.
  induction 1 as [|h1 h2 h3 Hm _ IH]; [apply extends_refl|].
  eapply extends_trans; [by apply mut_extends|done].
Qed.

Lemma extends_on_path h h' L i : extends h h' → on_path h L i → on_path h' L i.
Proof.
  intros He. apply rtc_subrel. intros x y (n & Hn & Hp).
  destruct (He _ _ Hn) as (n' & Hn' & Hp' & _). exists n'. split; congruence.
Qed.

Lemma backpropagate_fuel_mono fuel : ∀ fuel' L r w u w',
  backpropagate fuel L r w = Done u w' → fuel ≤ fuel' →
  backpropagate fuel' L r w = Done u w'.
Proof.
  induction fuel as [|fuel IH]; intros fuel' L r w u w' Hb Hle;
    [discriminate Hb|].
  destruct fuel' as [|fuel']; [lia|].
  destruct (heap w !! L) as [n|] eqn:Hn.
  - rewrite (backpropagate_unfold fuel _ _ _ n Hn) in Hb.
    rewrite (backpropagate_unfold fuel' _ _ _ n Hn). simpl in *.
    destruct (parent n); [|done]. apply IH; [done|lia].
  - by rewrite backpropagate_dangling in Hb.
Qed.

(** What a [backpropagate] that returns has done, whatever its fuel. *)
Lemma backpropagate_Done_spec fuel L r w u w' :
  wf_parents (heap w) →
  backpropagate fuel L r w = Done u w' →
  rng w' = rng w ∧ stdout w' = stdout w ∧
  (∀ i n, heap w !! i = Some n → on_path (heap w) L i →
          heap w' !! i = Some (visited r n)) ∧
  (∀ i, ¬ on_path (heap w) L i → heap w' !! i = heap w !! i).
Proof.
  intros Hwf Hb.
  assert (Hlt : L < length (heap w)).
  { destruct fuel as [|fuel]; [discriminate Hb|].
    destruct (heap w !! L) as [n|] eqn:Hn; [by eapply lookup_lt_Some|].
    by rewrite backpropagate_dangling in Hb. }
  destruct (backpropagate_spec L (fuel + S L) r w Hwf Hlt)
    as (w'' & Hrun & Hspec); [lia|].
  apply (backpropagate_fuel_mono _ (fuel + S L)) in Hb; [|lia].
  rewrite Hrun in Hb. assert (w'' = w') as <- by congruence. done.
Qed.

(** The heap after a new child of [self] for the action [a]. *)
Lemma child_heap_path h self n a i m :
  h !! self = Some n → (a ∉ tried_of n) → h !! i = Some m →
  on_path h self i →
  ∃ m', <[self := append_child a (length h) n]>
          (h ++ [init_node (param n) (Some self)]) !! i = Some m' ∧
        results m' = results m ∧ visits m' = visits m ∧
        on_path (<[self := append_child a (length h) n]>
                   (h ++ [init_node (param n) (Some self)])) (length h) i.
Proof.
  intros Hn Ha Hm Hpath.
  pose proof (lookup_lt_Some _ _ _ Hn) as Hself.
  set (h1 := <[self := append_child a (length h) n]>
               (h ++ [init_node (param n) (Some self)])).
  assert (Hext : extends h h1) by by apply rtc_mut_extends, child_mut.
  assert (Hm' : ∃ m', h1 !! i = Some m' ∧ results m' = results m ∧
                      visits m' = visits m).
  { destruct (decide (self = i)) as [->|Hne].
    - assert (m = n) as -> by congruence.
      exists (append_child a (length h) n). split; [|done].
      apply list_lookup_insert_eq. rewrite length_app. simpl. lia.
    - exists m. split; [|done]. unfold h1.
      rewrite list_lookup_insert_ne by done. by apply lookup_app_l_Some. }
  destruct Hm' as (m' & Hm' & Hr & Hv). exists m'. split_and!; [done..|].
  eapply rtc_l; [|by eapply extends_on_path].
  exists (init_node (param n) (Some self)). split; [|done]. unfold h1.
  rewrite list_lookup_insert_ne by lia. by apply list_lookup_middle.
Qed.

Lemma ucb_loop_elem p logt actions kids bs b pick :
  ucb_loop p logt actions kids bs b = Some pick →
  b = Some pick ∨ pick ∈ kids.*1.
Proof.
  revert bs b. induction kids as [|[[a c] m] kids IH]; intros bs b Hl;
    simpl in Hl; [by left|].
  destruct (bool_decide _); [destruct (f_gt _ _)|];
    apply IH in Hl as [Hl|Hl]; simpl; auto using list_elem_of_further.
  injection Hl as <-. right. by left.
Qed.

Lemma select_visits_path fuel : ∀ self state w r w',
  wf_parents (heap w) → linked (heap w) →
  select fuel self state w = Done r w' →
  ∃ x, ∀ i n, heap w !! i = Some n → on_path (heap w) self i →
    ∃ n', heap w' !! i = Some n' ∧ results n' = results n ++ [x] ∧
          visits n' = visits n + 1.
Proof.
  induction fuel as [|fuel IH]; intros self state w r w' Hwf Hl Hs;
    [discriminate Hs|].
  simpl in Hs. destruct (ended state).
  { apply bind_Done in Hs as (u & w1 & Hb & [_ <-]%ret_Done).
    apply backpropagate_Done_spec in Hb as (_ & _ & Hon & _); [|done].
    exists (score self state). intros i n Hn Hp.
    exists (visited (score self state) n). split; [by apply Hon|done]. }
  apply bind_Done in Hs as (n & w0 & [Hn ->]%get_node_Done & Hs).
  destruct (expand_triggered _ _).
  { unfold expand in Hs.
    apply bind_Done in Hs as (n0 & w0 & [Hn0 ->]%get_node_Done & Hs).
    assert (n0 = n) as -> by congruence.
    apply bind_Done in Hs
      as (a & w1 & (_ & Ha%list_elem_of_lookup_2 & ->)%choice_Done & Hs).
    apply list_elem_of_filter in Ha as [Hna _].
    apply bind_Done in Hs as (c0 & w2 & [-> ->]%new_node_Done & Hs).
    apply bind_Done in Hs as (u1 & w3 & (m & Hm & ->)%modify_node_Done & Hs).
    apply bind_Done in Hs as (s1 & w4 & [-> ->]%with_rng_Done & Hs).
    apply bind_Done in Hs as (x & w5 & [Hh _]%rollout_frame & Hs).
    apply bind_Done in Hs as (u2 & w6 & Hb & [_ <-]%ret_Done).
    simpl in *. rewrite (lookup_app_l_Some _ _ _ _ Hn) in Hm.
    injection Hm as <-.
    apply backpropagate_Done_spec in Hb as (_ & _ & Hon & _).
    2:{ rewrite Hh. eapply wf_parents_rtc_grow; [done|].
        apply rtc_once. by constructor. }
    rewrite Hh in Hon. exists x. intros i m Hm Hp.
    destruct (child_heap_path _ _ _ a _ _ Hn Hna Hm Hp)
      as (m' & Hm' & Hr & Hv & Hp').
    exists (visited x m'). split; [by apply Hon|]. simpl. by rewrite Hr, Hv. }
  apply bind_Done in Hs as (kids & w1 & [Hk ->]%get_kids_Done & Hs).
  apply bind_Done in Hs as (pick & w2 & Hpick & Hs).
  apply bind_Done in Hs as (s1 & w3 & [-> ->]%with_rng_Done & Hs).
  assert (Hold : ∀ a c w2, heap w2 = heap w → (a, c) ∈ children n →
    select fuel c (step state a (rng w2)).1
      (mkWorld (heap w2) (step state a (rng w2)).2 (stdout w2)) = Done r w' →
    ∃ x, ∀ i n, heap w !! i = Some n → on_path (heap w) self i →
      ∃ n', heap w' !! i = Some n' ∧ results n' = results n ++ [x] ∧
            visits n' = visits n + 1).
  { intros a c wx Hwx Hac Hsel.
    destruct (Hl _ _ _ _ Hn Hac) as (_ & m & Hm & Hpm & _).
    apply IH in Hsel as (x & Hx); simpl; [|by rewrite Hwx..].
    exists x. intros i ni Hni Hp. simpl in Hx. rewrite Hwx in Hx.
    apply Hx; [done|]. eapply rtc_l; [|done]. by exists m. }
  destruct (ucb_loop _ _ _ _ _ _) as [[a c]|] eqn:Hloop.
  { apply ret_Done in Hpick as [<- <-].
    apply ucb_loop_elem in Hloop as [|Hin]; [done|].
    rewrite (deref_fst _ _ _ Hk) in Hin. by apply (Hold a c w). }
  unfold fallback in Hpick.
  apply bind_Done in Hpick as (u1 & wa & ->%print_Done & Hpick).
  apply bind_Done in Hpick as (u2 & wb & ->%print_Done & Hpick).
  apply bind_Done in Hpick as (a & wc & (_ & _ & ->)%choice_Done & Hpick).
  simpl in Hpick.
  destruct (list_find _ _) as [[j [a' c]]|] eqn:Hfind.
  { apply ret_Done in Hpick as [<- <-].
    apply list_find_Some in Hfind as (Hj%list_elem_of_lookup_2 & Heq & _).
    simpl in Heq. subst a'. eapply (Hold a c); [|done|exact Hs]. done. }
  apply bind_Done in Hpick as (c0 & wd & [-> ->]%new_node_Done & Hpick).
  apply bind_Done in Hpick
    as (u3 & we & (m & Hm & ->)%modify_node_Done & [<- <-]%ret_Done).
  simpl in *. rewrite (lookup_app_l_Some _ _ _ _ Hn) in Hm.
  injection Hm as <-.
  assert (Hna : a ∉ tried_of n).
  { apply list_find_None in Hfind.
    unfold tried_of. intros ([a' c] & -> & Hin)%list_elem_of_fmap.
    by eapply Forall_forall in Hfind. }
  assert (Hg : grow (heap w)
    (<[self := append_child a (length (heap w)) n]>
       (heap w ++ [init_node (param n) (Some self)]))) by by constructor.
  apply IH in Hs as (x & Hx); simpl.
  2:{ eapply wf_parents_rtc_grow; [done|]. by apply rtc_once. }
  2:{ eapply linked_grow; done. }
  exists x. intros i m Hm Hp. simpl in Hx.
  destruct (child_heap_path _ _ _ a _ _ Hn Hna Hm Hp)
    as (m' & Hm' & Hr & Hv & Hp').
  destruct (Hx _ _ Hm' Hp') as (n' & Hn' & Hr' & Hv').
  exists n'. split; [done|]. by rewrite Hr', Hv', Hr, Hv.
Qed.

Lemma reachable_linked w : reachable w → linked (heap w).
Proof.
  intros Hw. induction Hw as [|w c w' _ IH Hrun].
  - intros i n a c Hi. done.
  - apply run_grow in Hrun. by eapply linked_rtc_grow.
Qed.

(** X8. In every world reached from the empty heap by constructing nodes
    and calling the methods, a [select] that returns has given exactly one
    more visit, and one and the same new result, to the node it was called
    on and to each of its ancestors. *)
Theorem select_visits_once fuel self state w r w' :
  reachable w →
  select fuel self state w = Done r w' →
  ∃ x, ∀ i n, heap w !! i = Some n → on_path (heap w) self i →
    ∃ n', heap w' !! i = Some n' ∧ results n' = results n ++ [x] ∧
          visits n' = visits n + 1.
Proof.
  intros Hw. apply select_visits_path.
  - by apply reachable_wf_parents.
  - by apply reachable_linked.
Qed.

Lemma iterate_visits fuel count : ∀ t battle_state w u w' n,
  wf_parents (heap w) → linked (heap w) →
  heap w !! t = Some n →
  iterate fuel count t battle_state w = Done u w' →
  ∃ n', heap w' !! t = Some n' ∧ visits n' = visits n + count ∧
        length (results n') = length (results n) + count ∧
        parent n' = parent n ∧ param n' = param n.
Proof.
  induction count as [|count IH]; intros t bs w u w' n Hwf Hl Hn Hi;
    simpl in Hi.
  - apply ret_Done in Hi as [_ <-]. exists n. split_and!; [done|lia|lia|done..].
  - apply bind_Done in Hi as (s1 & w1 & [-> ->]%with_rng_Done & Hi).
    apply bind_Done in Hi as (u1 & w2 & Hs & Hi). unfold tree_step in Hs.
    apply bind_Done in Hs as (r & w3 & Hs & [_ <-]%ret_Done).
    pose proof (select_grow _ _ _ _ _ _ Hs) as Hg. simpl in Hg.
    apply select_visits_path in Hs as (x & Hx); [|done..]. simpl in Hx.
    destruct (Hx t n Hn (rtc_refl _ _)) as (n1 & Hn1 & Hr1 & Hv1).
    destruct (rtc_mut_extends _ _ (rtc_grow_mut _ _ Hg) _ _ Hn)
      as (n1' & Hn1' & Hp1 & Hq1 & _).
    assert (n1' = n1) as -> by congruence.
    destruct (IH t bs w3 u w' n1) as (n' & Hn' & Hv' & Hr' & Hp' & Hq').
    + by eapply wf_parents_rtc_grow.
    + by eapply linked_rtc_grow.
    + done.
    + done.
    + exists n'. rewrite Hr1, length_app in Hr'. simpl in Hr'.
      split_and!; [done|lia|lia|congruence|congruence].
Qed.

(** X9. In every world reached from the empty heap by constructing nodes
    and calling the methods, when [choose_card] searches (the state does
    not offer exactly one action) and returns, the root it has constructed
    is the node after the last of the old heap, has no parent, carries the
    parameter of the agent, and has as many visits, and results, as the
    agent has iterations. *)
Theorem choose_card_visits_root fuel agent battle_state w e w' :
  reachable w →
  (∀ a, get_actions battle_state ≠ [a]) →
  choose_card fuel agent battle_state w = Done e w' →
  ∃ root, heap w' !! length (heap w) = Some root ∧
    parent root = None ∧ param root = agent_param agent ∧
    visits root = iterations agent ∧
    length (results root) = iterations agent.
Proof.
  intros Hw Hone Hc. unfold choose_card in Hc.
  assert (Hgen :
    (t ← new_node (agent_param agent) None;
     iterate fuel (iterations agent) t battle_state;;
     best_action ← get_best t battle_state;
     (if verbose agent then print_tree fuel t 0 else mret ());;
     mret (to_action best_action battle_state)) w = Done e w').
  { destruct (get_actions battle_state) as [|a [|b l]]; [done| |done].
    by destruct (Hone a). }
  clear Hc.
  apply bind_Done in Hgen as (t & w1 & [-> ->]%new_node_Done & Hc).
  apply bind_Done in Hc as (u1 & w2 & Hit & Hc).
  apply bind_Done in Hc as (b & w3 & [Hg _]%get_best_frame & Hc).
  apply bind_Done in Hc as (u2 & w4 & Hp & [_ <-]%ret_Done).
  assert (Hv : heap w4 = heap w2).
  { rewrite <- Hg. destruct (verbose agent).
    - by apply print_tree_frame in Hp as [-> _].
    - by apply ret_Done in Hp as [_ ->]. }
  rewrite Hv.
  assert (Hgrow : grow (heap w) (heap w ++ [init_node (agent_param agent) None]))
    by (apply (grow_node _ _ None); by intros).
  eapply (iterate_visits _ _ _ _ _ _ _ (init_node (agent_param agent) None))
    in Hit as (root & Hroot & Hvis & Hres & Hpar & Hprm); simpl.
  - exists root. simpl in *. split_and!; [done..|lia|lia].
  - eapply wf_parents_rtc_grow; [by apply reachable_wf_parents|].
    by apply rtc_once.
  - eapply linked_grow; [by apply reachable_linked|done].
  - by apply list_lookup_middle.
Qed.

(** ** What one search adds to the tree *)

Lemma backpropagate_children fuel : ∀ L r w u w',
  backpropagate fuel L r w = Done u w' →
  length (heap w') = length (heap w) ∧
  ∀ i m, heap w !! i = Some m →
    ∃ m', heap w' !! i = Some m' ∧ children m' = children m.
Proof.
  induction fuel as [|fuel IH]; intros L r w u w' Hb; [discriminate Hb|].
  destruct (heap w !! L) as [n|] eqn:Hn.
  2:{ by rewrite backpropagate_dangling in Hb. }
  rewrite (backpropagate_unfold _ _ _ _ n Hn) in Hb. simpl in Hb.
  assert (Hone : ∀ i m, heap w !! i = Some m →
    ∃ m', <[L := visited r n]> (heap w) !! i = Some m' ∧
          children m' = children m).
  { intros i m Hm. destruct (decide (L = i)) as [->|Hne].
    - assert (m = n) as -> by congruence. exists (visited r n).
      split; [|done]. apply list_lookup_insert_eq. by eapply lookup_lt_Some.
    - exists m. by rewrite list_lookup_insert_ne. }
  destruct (parent n).
  - apply IH in Hb as [Hlen Hch]. simpl in *.
    rewrite length_insert in Hlen. split; [done|].
    intros i m Hm. destruct (Hone i m Hm) as (m1 & Hm1 & Hc1).
    destruct (Hch i m1 Hm1) as (m2 & Hm2 & Hc2). exists m2.
    split; [done|congruence].
  - assert (w' = set_heap (<[L := visited r n]> (heap w)) w) as ->
      by congruence.
    simpl. by rewrite length_insert.
Qed.

(** X10. In every world reached from the empty heap by constructing nodes
    and calling the methods, [select] on a state that has ended, given fuel
    for the depth of the node, returns the node itself: it constructs no
    node, draws and prints nothing, and records the score of the state
    once on the node and on each of its ancestors, and nowhere else. *)
Theorem select_on_ended_state fuel self state w :
  reachable w →
  ended state = true →
  self < length (heap w) →
  self < fuel →
  ∃ w', select (S fuel) self state w = Done self w' ∧
    rng w' = rng w ∧ stdout w' = stdout w ∧
    length (heap w') = length (heap w) ∧
    (∀ i n, heap w !! i = Some n → on_path (heap w) self i →
       heap w' !! i = Some (visited (state_score state) n)) ∧
    (∀ i, ¬ on_path (heap w) self i → heap w' !! i = heap w !! i).
Proof.
  intros Hw He Hself Hfuel.
  destruct (backpropagate_spec self fuel (state_score state) w)
    as (w' & Hrun & Hrng & Hout & Hon & Hoff);
    [by apply reachable_wf_parents|done..|].
  exists w'. split_and!; [|done|done| |done|done].
  - rewrite select_ended by done. unfold score.
    by rewrite (bind_eq _ _ _ _ _ Hrun).
  - by apply backpropagate_children in Hrun as [? _].
Qed.

Lemma expand_length fuel self state available w c w' :
  expand fuel self state available w = Done c w' →
  length (heap w') = S (length (heap w)).
Proof.
  unfold expand. intros Hx.
  apply bind_Done in Hx as (n & w0 & [Hn ->]%get_node_Done & Hx).
  apply bind_Done in Hx as (a & w1 & (_ & _ & ->)%choice_Done & Hx).
  apply bind_Done in Hx as (c0 & w2 & [-> ->]%new_node_Done & Hx).
  apply bind_Done in Hx as (u1 & w3 & (m & Hm & ->)%modify_node_Done & Hx).
  apply bind_Done in Hx as (s1 & w4 & [-> ->]%with_rng_Done & Hx).
  apply bind_Done in Hx as (x & w5 & [Hh _]%rollout_frame & Hx).
  apply bind_Done in Hx as (u2 & w6 & [Hlen _]%backpropagate_children & [_ <-]%ret_Done).
  simpl in *. rewrite Hlen, Hh, length_insert, length_app. simpl. lia.
Qed.

(** A search from a node without children adds at most one node. *)
Lemma select_leaf_length fuel c state w r w' m :
  heap w !! c = Some m → children m = [] →
  select fuel c state w = Done r w' →
  length (heap w) ≤ length (heap w') ≤ S (length (heap w)).
Proof.
  intros Hm Hc Hs. destruct fuel as [|fuel]; [discriminate Hs|].
  simpl in Hs. destruct (ended state).
  { apply bind_Done in Hs as (u & w1 & [Hlen _]%backpropagate_children & [_ <-]%ret_Done).
    lia. }
  rewrite (bind_eq _ _ w m w) in Hs by by apply get_node_eq.
  destruct (expand_triggered m (get_actions state)) eqn:Hx.
  { apply expand_length in Hs. lia. }
  unfold expand_triggered in Hx. apply bool_decide_eq_false in Hx.
  rewrite Hc in Hx. simpl in Hx.
  destruct (get_actions state) as [|a l] eqn:Ha; [|simpl in Hx; lia].
  rewrite (bind_eq _ _ w [] w) in Hs by (apply get_kids_eq; by rewrite Hc).
  discriminate Hs.
Qed.

Lemma select_length fuel : ∀ self state w r w',
  select fuel self state w = Done r w' →
  length (heap w) ≤ length (heap w') ≤ length (heap w) + 2.
Proof.
  induction fuel as [|fuel IH]; intros self state w r w' Hs;
    [discriminate Hs|].
  simpl in Hs. destruct (ended state).
  { apply bind_Done in Hs as (u & w1 & [Hlen _]%backpropagate_children & [_ <-]%ret_Done).
    lia. }
  apply bind_Done in Hs as (n & w0 & [Hn ->]%get_node_Done & Hs).
  destruct (expand_triggered _ _).
  { apply expand_length in Hs. lia. }
  apply bind_Done in Hs as (kids & w1 & [Hk ->]%get_kids_Done & Hs).
  apply bind_Done in Hs as (pick & w2 & Hpick & Hs).
  apply bind_Done in Hs as (s1 & w3 & [-> ->]%with_rng_Done & Hs).
  destruct (ucb_loop _ _ _ _ _ _) as [p|].
  { apply ret_Done in Hpick as [<- <-]. by apply IH in Hs. }
  unfold fallback in Hpick.
  apply bind_Done in Hpick as (u1 & wa & ->%print_Done & Hpick).
  apply bind_Done in Hpick as (u2 & wb & ->%print_Done & Hpick).
  apply bind_Done in Hpick as (a & wc & (_ & _ & ->)%choice_Done & Hpick).
  simpl in Hpick.
  destruct (list_find _ _) as [[j [a' c]]|].
  { apply ret_Done in Hpick as [<- <-]. by apply IH in Hs. }
  apply bind_Done in Hpick as (c0 & wd & [-> ->]%new_node_Done & Hpick).
  apply bind_Done in Hpick
    as (u3 & we & (m & Hm & ->)%modify_node_Done & [<- <-]%ret_Done).
  simpl in *. pose proof (lookup_lt_Some _ _ _ Hn) as Hself.
  eapply (select_leaf_length _ _ _ _ _ _ (init_node (param n) (Some self)))
    in Hs; simpl; [|by rewrite list_lookup_insert_ne, list_lookup_middle by lia|done].
  simpl in Hs. rewrite length_insert, length_app in Hs. simpl in Hs. lia.
Qed.

(** X12. A [select] that returns has added at most two nodes to the heap
    (a child made by the fallback and a leaf expanded under it), and has
    removed none. *)
Theorem select_adds_at_most_two_nodes fuel self state w r w' :
  select fuel self state w = Done r w' →
  length (heap w) ≤ length (heap w') ≤ length (heap w) + 2.
Proof. apply select_length. Qed.

(** ** [choose_card] without iterations *)

(** X13. With no iteration, on a state that offers several actions,
    [choose_card] constructs the root, draws once, and returns the legal
    action at the position drawn; nothing is printed, the root having no
    children (printing needs one unit of fuel). *)
Theorem choose_card_without_iterations fuel agent battle_state w :
  iterations agent = 0 →
  1 < length (get_actions battle_state) →
  (verbose agent = true → 0 < fuel) →
  ∃ a, get_actions battle_state
         !! (tape (rng w) (pos (rng w)) mod length (get_actions battle_state))
       = Some a ∧
    choose_card fuel agent battle_state w =
      Done (to_action a battle_state)
        (mkWorld (heap w ++ [init_node (agent_param agent) None])
                 (advance (rng w)) (stdout w)).
Proof.
  intros Hit Hlen Hfuel.
  assert (Hlt : tape (rng w) (pos (rng w)) mod length (get_actions battle_state)
                < length (get_actions battle_state)).
  { apply Nat.mod_upper_bound. lia. }
  destruct (lookup_lt_is_Some_2 _ _ Hlt) as [a Ha]. exists a.
  split; [done|]. unfold choose_card.
  set (w1 := mkWorld (heap w ++ [init_node (agent_param agent) None])
                     (rng w) (stdout w)).
  set (w2 := mkWorld (heap w ++ [init_node (agent_param agent) None])
                     (advance (rng w)) (stdout w)).
  assert (Hroot : ∀ g, heap (mkWorld (heap w1) g (stdout w)) !! length (heap w)
                       = Some (init_node (agent_param agent) None)).
  { intros g. simpl. by apply list_lookup_middle. }
  assert (Hgen :
    (t ← new_node (agent_param agent) None;
     iterate fuel (iterations agent) t battle_state;;
     best_action ← get_best t battle_state;
     (if verbose agent then print_tree fuel t 0 else mret ());;
     mret (to_action best_action battle_state)) w =
    Done (to_action a battle_state) w2).
  { rewrite (bind_eq _ _ w (length (heap w)) w1) by done.
    rewrite Hit. simpl iterate. rewrite (bind_eq _ _ w1 () w1) by done.
    rewrite (bind_eq _ _ w1 a w2).
    2:{ unfold get_best.
        rewrite (bind_eq _ _ w1 (init_node (agent_param agent) None) w1)
          by (apply get_node_eq; apply (Hroot (rng w))).
        simpl. apply choice_Done. split_and!; [|done..].
        intros Hnil. rewrite Hnil in Hlen. simpl in Hlen. lia. }
    rewrite (bind_eq _ _ w2 () w2); [done|].
    destruct (verbose agent); [|done].
    destruct fuel as [|fuel]; [specialize (Hfuel eq_refl); lia|].
    simpl. rewrite (bind_eq _ _ w2 (init_node (agent_param agent) None) w2).
    - done.
    - apply get_node_eq. apply (Hroot (advance (rng w))). }
  destruct (get_actions battle_state) as [|x [|y l]]; [done| |done].
  simpl in Hlen. lia.
Qed.

(** ** Where children are added *)

Lemma select_children_frame fuel : ∀ self state w r w' n,
  linked (heap w) →
  heap w !! self = Some n →
  select fuel self state w = Done r w' →
  (∀ i m, i < self → heap w !! i = Some m →
     ∃ m', heap w' !! i = Some m' ∧ children m' = children m) ∧
  ∃ n', heap w' !! self = Some n' ∧
    (children n' = children n ∨
     ∃ a c, children n' = children n ++ [(a, c)] ∧
            a ∈ get_actions state ∧ a ∉ tried_of n).
Proof.
  induction fuel as [|fuel IH]; intros self state w r w' n Hl Hn Hs;
    [discriminate Hs|].
  pose proof (lookup_lt_Some _ _ _ Hn) as Hself.
  simpl in Hs. destruct (ended state).
  { apply bind_Done in Hs
      as (u & w1 & [_ Hch]%backpropagate_children & [_ <-]%ret_Done).
    split; [by intros i m _; apply Hch|].
    destruct (Hch _ _ Hn) as (n' & Hn' & Hc). exists n'. by split; [|left]. }
  (* the heap after a new child of [self] *)
  assert (Hnew : ∀ a w1 w2,
    heap w1 = <[self := append_child a (length (heap w)) n]>
                (heap w ++ [init_node (param n) (Some self)]) →
    a ∈ get_actions state → a ∉ tried_of n →
    (∀ i m, i < length (heap w) → heap w1 !! i = Some m →
       ∃ m', heap w2 !! i = Some m' ∧ children m' = children m) →
    (∀ i m, i < self → heap w !! i = Some m →
       ∃ m', heap w2 !! i = Some m' ∧ children m' = children m) ∧
    ∃ n', heap w2 !! self = Some n' ∧
      (children n' = children n ∨
       ∃ a c, children n' = children n ++ [(a, c)] ∧
              a ∈ get_actions state ∧ a ∉ tried_of n)).
  { intros a w1 w2 Hw1 Ha Hna Hch. split.
    - intros i m Hi Hm. apply Hch; [lia|]. rewrite Hw1.
      rewrite list_lookup_insert_ne by lia. by apply lookup_app_l_Some.
    - destruct (Hch self (append_child a (length (heap w)) n)) as (n' & Hn' & Hc);
        [done| |].
      + rewrite Hw1. apply list_lookup_insert_eq. rewrite length_app. lia.
      + exists n'. split; [done|]. right. by exists a, (length (heap w)). }
  apply bind_Done in Hs as (n0 & w0 & [Hn0 ->]%get_node_Done & Hs).
  assert (n0 = n) as -> by congruence.
  destruct (expand_triggered _ _).
  { unfold expand in Hs.
    apply bind_Done in Hs as (n0 & w0 & [Hn0' ->]%get_node_Done & Hs).
    assert (n0 = n) as -> by congruence.
    apply bind_Done in Hs
      as (a & w1 & (_ & Ha%list_elem_of_lookup_2 & ->)%choice_Done & Hs).
    apply list_elem_of_filter in Ha as [Hna Hav].
    apply bind_Done in Hs as (c0 & w2 & [-> ->]%new_node_Done & Hs).
    apply bind_Done in Hs as (u1 & w3 & (m & Hm & ->)%modify_node_Done & Hs).
    apply bind_Done in Hs as (s1 & w4 & [-> ->]%with_rng_Done & Hs).
    apply bind_Done in Hs as (x & w5 & [Hh _]%rollout_frame & Hs).
    apply bind_Done in Hs
      as (u2 & w6 & [_ Hch]%backpropagate_children & [_ <-]%ret_Done).
    simpl in *. rewrite (lookup_app_l_Some _ _ _ _ Hn) in Hm.
    injection Hm as <-.
    apply (Hnew a w5 w6); [done..|]. by intros i m _; apply Hch. }
  apply bind_Done in Hs as (kids & w1 & [Hk ->]%get_kids_Done & Hs).
  apply bind_Done in Hs as (pick & w2 & Hpick & Hs).
  apply bind_Done in Hs as (s1 & w3 & [-> ->]%with_rng_Done & Hs).
  assert (Hold : ∀ a c w2, heap w2 = heap w → (a, c) ∈ children n →
    select fuel c (step state a (rng w2)).1
      (mkWorld (heap w2) (step state a (rng w2)).2 (stdout w2)) = Done r w' →
    (∀ i m, i < self → heap w !! i = Some m →
       ∃ m', heap w' !! i = Some m' ∧ children m' = children m) ∧
    ∃ n', heap w' !! self = Some n' ∧
      (children n' = children n ∨
       ∃ a c, children n' = children n ++ [(a, c)] ∧
              a ∈ get_actions state ∧ a ∉ tried_of n)).
  { intros a c wx Hwx Hac Hsel.
    destruct (Hl _ _ _ _ Hn Hac) as (Hlt & m & Hm & _).
    apply (IH _ _ _ _ _ m) in Hsel as [Hbelow _]; simpl;
      [|by rewrite Hwx..].
    simpl in Hbelow. rewrite Hwx in Hbelow. split.
    - intros i mi Hi Hmi. apply Hbelow; [lia|done].
    - destruct (Hbelow self n Hlt Hn) as (n' & Hn' & Hc).
      exists n'. by split; [|left]. }
  destruct (ucb_loop _ _ _ _ _ _) as [[a c]|] eqn:Hloop.
  { apply ret_Done in Hpick as [<- <-].
    apply ucb_loop_elem in Hloop as [|Hin]; [done|].
    rewrite (deref_fst _ _ _ Hk) in Hin. by apply (Hold a c w). }
  unfold fallback in Hpick.
  apply bind_Done in Hpick as (u1 & wa & ->%print_Done & Hpick).
  apply bind_Done in Hpick as (u2 & wb & ->%print_Done & Hpick).
  apply bind_Done in Hpick
    as (a & wc & (_ & Ha%list_elem_of_lookup_2 & ->)%choice_Done & Hpick).
  simpl in Hpick.
  destruct (list_find _ _) as [[j [a' c]]|] eqn:Hfind.
  { apply ret_Done in Hpick as [<- <-].
    apply list_find_Some in Hfind as (Hj%list_elem_of_lookup_2 & Heq & _).
    simpl in Heq. subst a'. eapply (Hold a c); [|done|exact Hs]. done. }
  apply bind_Done in Hpick as (c0 & wd & [-> ->]%new_node_Done & Hpick).
  apply bind_Done in Hpick
    as (u3 & we & (m & Hm & ->)%modify_node_Done & [<- <-]%ret_Done).
  simpl in *. rewrite (lookup_app_l_Some _ _ _ _ Hn) in Hm.
  injection Hm as <-.
  assert (Hna : a ∉ tried_of n).
  { apply list_find_None in Hfind.
    unfold tried_of. intros ([a' c] & -> & Hin)%list_elem_of_fmap.
    by eapply Forall_forall in Hfind. }
  apply (IH _ _ _ _ _ (init_node (param n) (Some self))) in Hs
    as [Hbelow _]; simpl.
  - eapply (Hnew a); [|done|done|exact Hbelow]. done.
  - eapply linked_grow; [done|]. by constructor.
  - rewrite list_lookup_insert_ne by lia. by apply list_lookup_middle.
Qed.

(** X14. In every world reached from the empty heap by constructing nodes
    and calling the methods, a [select] that returns has left the children
    of every node constructed before the one it was called on as they
    were, and has given that node at most one more child, at the end of
    its children, for a legal action of the state that had none. *)
Theorem select_appends_one_legal_child fuel self state w r w' n :
  reachable w →
  heap w !! self = Some n →
  select fuel self state w = Done r w' →
  (∀ i m, i < self → heap w !! i = Some m →
     ∃ m', heap w' !! i = Some m' ∧ children m' = children m) ∧
  ∃ n', heap w' !! self = Some n' ∧
    (children n' = children n ∨
     ∃ a c, children n' = children n ++ [(a, c)] ∧
            a ∈ get_actions state ∧ a ∉ tried_of n).
Proof.
  intros Hw. apply select_children_frame. by apply reachable_linked.
Qed.

Lemma iterate_root_actions fuel count : ∀ t battle_state w u w' n,
  (∀ g, get_actions (copy_undeterministic battle_state g).1
        = get_actions battle_state) →
  linked (heap w) → heap w !! t = Some n →
  iterate fuel count t battle_state w = Done u w' →
  ∃ n', heap w' !! t = Some n' ∧
    ∀ a, a ∈ tried_of n' → a ∈ tried_of n ∨ a ∈ get_actions battle_state.
Proof.
  induction count as [|count IH]; intros t bs w u w' n Hcopy Hl Hn Hi;
    simpl in Hi.
  - apply ret_Done in Hi as [_ <-]. exists n. split; [done|]. by left.
  - apply bind_Done in Hi as (s1 & w1 & [-> ->]%with_rng_Done & Hi).
    apply bind_Done in Hi as (u1 & w2 & Hs & Hi). unfold tree_step in Hs.
    apply bind_Done in Hs as (r & w3 & Hs & [_ <-]%ret_Done).
    pose proof (select_grow _ _ _ _ _ _ Hs) as Hg. simpl in Hg.
    apply (select_children_frame _ _ _ _ _ _ n) in Hs
      as (_ & n1 & Hn1 & Hc1); [|done..].
    destruct (IH t bs w3 u w' n1 Hcopy) as (n' & Hn' & Hsub); [|done..|].
    { by eapply linked_rtc_grow. }
    exists n'. split; [done|]. intros a Ha.
    destruct (Hsub a Ha) as [Ha1|]; [|by right].
    unfold tried_of in Ha1.
    destruct Hc1 as [Hc1|(a1 & c1 & Hc1 & Hleg & _)]; rewrite Hc1 in Ha1.
    + by left.
    + rewrite fmap_app in Ha1. apply elem_of_app in Ha1 as [|Ha1]; [by left|].
      apply list_elem_of_singleton in Ha1. simpl in Ha1. subst a1.
      right. by rewrite <- (Hcopy (rng w)).
Qed.

(** X15. In every world reached from the empty heap by constructing nodes
    and calling the methods, when the sampled copies of the state offer the
    actions the state offers, what [choose_card] returns is a legal action
    of the state, converted by [to_action]. *)
Theorem choose_card_returns_legal_action fuel agent battle_state w e w' :
  reachable w →
  (∀ g, get_actions (copy_undeterministic battle_state g).1
        = get_actions battle_state) →
  choose_card fuel agent battle_state w = Done e w' →
  ∃ a, a ∈ get_actions battle_state ∧ e = to_action a battle_state.
Proof.
  intros Hw Hcopy Hc. unfold choose_card in Hc.
  assert (Hgen :
    (t ← new_node (agent_param agent) None;
     iterate fuel (iterations agent) t battle_state;;
     best_action ← get_best t battle_state;
     (if verbose agent then print_tree fuel t 0 else mret ());;
     mret (to_action best_action battle_state)) w = Done e w' →
    ∃ a, a ∈ get_actions battle_state ∧ e = to_action a battle_state).
  { clear Hc. intros Hc.
    apply bind_Done in Hc as (t & w1 & [-> ->]%new_node_Done & Hc).
    apply bind_Done in Hc as (u1 & w2 & Hit & Hc).
    apply bind_Done in Hc as (b & w3 & Hbest & Hc).
    apply bind_Done in Hc as (u2 & w4 & Hp & [<- _]%ret_Done).
    eapply (iterate_root_actions _ _ _ _ _ _ _
              (init_node (agent_param agent) None)) in Hit
      as (root & Hroot & Hsub); simpl; [|done| |by apply list_lookup_middle].
    2:{ eapply linked_grow; [by apply reachable_linked|].
        apply (grow_node _ _ None). by intros. }
    exists b. split; [|done].
    destruct (get_best_known _ _ _ _ _ _ Hroot Hbest) as (_ & _ & Hnil & Hkids).
    destruct (decide (children root = [])) as [Hc0|Hc0].
    - by apply Hnil.
    - destruct (Hkids Hc0) as [Hb _].
      destruct (Hsub b Hb) as [Hb0|]; [|done]. by apply elem_of_nil in Hb0. }
  destruct (get_actions battle_state) as [|a [|b l]] eqn:Ha; [by auto| |by auto].
  apply ret_Done in Hc as [<- _]. exists a. split; [by left|done].
Qed.

(** ** A search returns *)

Lemma choice_returns {A} (seq : list A) w :
  seq ≠ [] →
  ∃ a, a ∈ seq ∧
    choice seq w = Done a (mkWorld (heap w) (advance (rng w)) (stdout w)).
Proof.
  intros Hne.
  assert (Hlt : tape (rng w) (pos (rng w)) mod length seq < length seq).
  { apply Nat.mod_upper_bound. by destruct seq. }
  destruct (lookup_lt_is_Some_2 _ _ Hlt) as [a Ha]. exists a.
  split; [by eapply list_elem_of_lookup_2|]. by apply choice_Done.
Qed.

Lemma well_behaved_keeps_contract μ :
  well_behaved μ → keeps_contract (λ _, True) μ.
Proof.
  intros Hwb s _ He. destruct (Hwb s He) as (Hne & Hnd & Hdec).
  split_and!; [done..|]. intros a g Ha. split; [done|]. by apply Hdec.
Qed.

Lemma rollout_returns_from P μ fuel : ∀ self state w,
  keeps_contract P μ → P state → μ state < fuel →
  ∃ r w', rollout fuel self state w = Done r w'.
Proof.
  induction fuel as [|fuel IH]; intros self state w Hwb HP Hfuel; [lia|].
  simpl. destruct (ended state) eqn:He; [by eexists _, _|].
  destruct (Hwb state HP He) as (Hne & _ & Hdec).
  destruct (choice_returns (get_actions state) w Hne) as (a & Ha & Hch).
  rewrite (bind_eq _ _ _ _ _ Hch).
  rewrite (bind_eq _ _ _ (step state a (advance (rng w))).1
             (mkWorld (heap w) (step state a (advance (rng w))).2 (stdout w)))
    by by apply with_rng_Done.
  destruct (Hdec a (advance (rng w)) Ha) as [HP' Hlt].
  apply IH; [done..|]. lia.
Qed.

Lemma rollout_returns_with μ fuel self state w :
  well_behaved μ → μ state < fuel →
  ∃ r w', rollout fuel self state w = Done r w'.
Proof.
  intros Hwb%well_behaved_keeps_contract.
  by apply (rollout_returns_from (λ _, True)).
Qed.

Lemma linked_deref h i n :
  linked h → h !! i = Some n → ∃ kids, deref h (children n) = Some kids.
Proof.
  intros Hl Hn.
  assert (Hall : ∀ ac, ac ∈ children n → is_Some (h !! ac.2)).
  { intros [a c] Hac. destruct (Hl _ _ _ _ Hn Hac) as (_ & m & Hm & _).
    by exists m. }
  clear Hn. unfold deref. induction (children n) as [|[a c] l IH].
  - by exists [].
  - destruct (Hall (a, c)) as [m Hm]; [by left|].
    destruct IH as [kids Hk]; [intros ac Hac; apply Hall; by right|].
    exists ((a, c, m) :: kids). simpl in *. by rewrite Hm, Hk.
Qed.

Lemma ucb_loop_legal p logt actions kids bs b pick :
  ucb_loop p logt actions kids bs b = Some pick →
  b = Some pick ∨ pick.1 ∈ actions.
Proof.
  revert bs b. induction kids as [|[[a c] m] kids IH]; intros bs b Hl;
    simpl in Hl; [by left|].
  case_bool_decide as Ha; [destruct (f_gt _ _)|];
    apply IH in Hl as [Hl|Hl]; auto.
  injection Hl as <-. by right.
Qed.

Lemma select_returns_from P μ fuel : ∀ self state w,
  keeps_contract P μ → P state →
  wf_parents (heap w) → linked (heap w) →
  self < length (heap w) →
  2 * μ state + length (heap w) + 2 < fuel →
  ∃ r w', select fuel self state w = Done r w'.
Proof.
  induction fuel as [|fuel IH]; intros self state w Hwb HP Hwf Hl Hself Hfuel;
    [lia|].
  simpl. destruct (ended state) eqn:He.
  { destruct (backpropagate_spec self fuel (score self state) w)
      as (w' & Hrun & _); [done|done|lia|].
    rewrite (bind_eq _ _ _ _ _ Hrun). by eexists _, _. }
  destruct (Hwb state HP He) as (Hne & Hnd & Hdec).
  destruct (lookup_lt_is_Some_2 _ _ Hself) as [n Hn].
  rewrite (bind_eq _ _ w n w) by by apply get_node_eq.
  (* the step into a child *)
  assert (Hdesc : ∀ a c w1,
    a ∈ get_actions state → wf_parents (heap w1) → linked (heap w1) →
    c < length (heap w1) → length (heap w1) ≤ S (length (heap w)) →
    ∃ r w', (state' ← with_rng (step state a); select fuel c state') w1
            = Done r w').
  { intros a c w1 Ha Hwf1 Hl1 Hc Hlen.
    rewrite (bind_eq _ _ _ (step state a (rng w1)).1
               (mkWorld (heap w1) (step state a (rng w1)).2 (stdout w1)))
      by by apply with_rng_Done.
    destruct (Hdec a (rng w1) Ha) as [HP' Hlt].
    apply IH; [done..|]. simpl. lia. }
  assert (Hg : ∀ a, a ∉ tried_of n → grow (heap w)
    (<[self := append_child a (length (heap w)) n]>
       (heap w ++ [init_node (param n) (Some self)])))
    by (intros a Hna; by constructor).
  destruct (expand_triggered n (get_actions state)) eqn:Hx.
  { unfold expand. rewrite (bind_eq _ _ w n w) by by apply get_node_eq.
    destruct (choice_returns _ w (unexplored_nonempty _ _ Hx Hnd))
      as (a & [Hna Ha]%list_elem_of_filter & Hch).
    rewrite (bind_eq _ _ _ _ _ Hch).
    rewrite (bind_eq _ _ _ (length (heap w))
      (mkWorld (heap w ++ [init_node (param n) (Some self)])
               (advance (rng w)) (stdout w))) by done.
    rewrite (bind_eq _ _ _ ()
      (mkWorld (<[self := append_child a (length (heap w)) n]>
                  (heap w ++ [init_node (param n) (Some self)]))
               (advance (rng w)) (stdout w))).
    2:{ unfold modify_node. simpl. by rewrite (lookup_app_l_Some _ _ _ _ Hn). }
    rewrite (bind_eq _ _ _ (step state a (advance (rng w))).1
      (mkWorld (<[self := append_child a (length (heap w)) n]>
                  (heap w ++ [init_node (param n) (Some self)]))
               (step state a (advance (rng w))).2 (stdout w)))
      by by apply with_rng_Done.
    match goal with |- context [rollout fuel ?c ?s] =>
      destruct (rollout_returns_from P μ fuel c s
        (mkWorld (<[self := append_child a (length (heap w)) n]>
                    (heap w ++ [init_node (param n) (Some self)]))
                 (step state a (advance (rng w))).2 (stdout w)) Hwb)
        as (x & w5 & Hroll)
    end.
    { by destruct (Hdec a (advance (rng w)) Ha). }
    { destruct (Hdec a (advance (rng w)) Ha). lia. }
    rewrite (bind_eq _ _ _ _ _ Hroll).
    apply rollout_frame in Hroll as [Hh _]. simpl in Hh.
    destruct (backpropagate_spec (length (heap w)) fuel x w5)
      as (w6 & Hrun & _).
    - rewrite Hh. eapply wf_parents_rtc_grow; [done|]. apply rtc_once. auto.
    - rewrite Hh, length_insert, length_app. simpl. lia.
    - lia.
    - rewrite (bind_eq _ _ _ _ _ Hrun). by eexists _, _. }
  destruct (linked_deref _ _ _ Hl Hn) as [kids Hk].
  rewrite (bind_eq _ _ w kids w) by by apply get_kids_eq.
  destruct (ucb_loop _ _ _ _ _ _) as [[a c]|] eqn:Hloop.
  { rewrite (bind_eq _ _ w (a, c) w) by done. simpl.
    pose proof (ucb_loop_legal _ _ _ _ _ _ _ Hloop) as [|Ha]; [done|].
    apply ucb_loop_elem in Hloop as [|Hin]; [done|].
    rewrite (deref_fst _ _ _ Hk) in Hin.
    destruct (Hl _ _ _ _ Hn Hin) as (_ & m & Hm%lookup_lt_Some & _).
    apply Hdesc; [done..|lia]. }
  destruct (choice_returns (get_actions state) w Hne) as (a & Ha & Hch).
  apply choice_Done in Hch as (_ & Hat & _).
  pose proof (fallback_eq self n (get_actions state) w a Hn Hat) as Hfb.
  simpl in Hfb.
  destruct (list_find _ _) as [[j [a' c]]|] eqn:Hfind.
  - rewrite (bind_eq _ _ _ _ _ Hfb). simpl.
    apply list_find_Some in Hfind as (Hj%list_elem_of_lookup_2 & _).
    destruct (Hl _ _ _ _ Hn Hj) as (_ & m & Hm%lookup_lt_Some & _).
    apply Hdesc; simpl; [done..|lia].
  - rewrite (bind_eq _ _ _ _ _ Hfb). simpl.
    assert (Hna : a ∉ tried_of n).
    { apply list_find_None in Hfind.
      unfold tried_of. intros ([a' c] & -> & Hin)%list_elem_of_fmap.
      by eapply Forall_forall in Hfind. }
    apply Hdesc; simpl.
    + done.
    + eapply wf_parents_rtc_grow; [done|]. apply rtc_once. auto.
    + eapply linked_grow; [done|]. auto.
    + rewrite length_insert, length_app. simpl. lia.
    + rewrite length_insert, length_app. simpl. lia.
Qed.

Lemma select_returns_with μ fuel self state w :
  well_behaved μ →
  wf_parents (heap w) → linked (heap w) →
  self < length (heap w) →
  2 * μ state + length (heap w) + 2 < fuel →
  ∃ r w', select fuel self state w = Done r w'.
Proof.
  intros Hwb%well_behaved_keeps_contract.
  by apply (select_returns_from (λ _, True)).
Qed.

(** X16. On a game that keeps its contract and ends, a rollout given fuel
    above the measure of the state returns. *)
Theorem rollout_returns μ fuel self state w :
  well_behaved μ →
  μ state < fuel →
  ∃ r w', rollout fuel self state w = Done r w'.
Proof. apply rollout_returns_with. Qed.

(** X17. On a game that keeps its contract and ends, in every world
    reached from the empty heap by constructing nodes and calling the
    methods, [select] on a node of the heap returns when given enough
    fuel: one search raises no exception. *)
Theorem select_returns μ fuel self state w :
  well_behaved μ →
  reachable w →
  self < length (heap w) →
  2 * μ state + length (heap w) + 2 < fuel →
  ∃ r w', select fuel self state w = Done r w'.
Proof.
  intros Hwb Hw. apply select_returns_with; [done| |].
  - by apply reachable_wf_parents.
  - by apply reachable_linked.
Qed.

(** ** A decision returns *)

Lemma for_each_returns {A} (l : list A) (body : A → Mo unit) (P : W → Prop) :
  (∀ x w, x ∈ l → P w → ∃ w', body x w = Done () w' ∧ P w') →
  ∀ w, P w → ∃ w', for_each l body w = Done () w' ∧ P w'.
Proof.
  induction l as [|x l IH]; intros Hbody w Hw; simpl.
  - by exists w.
  - destruct (Hbody x w) as (w1 & Hx & Hw1); [by left|done|].
    rewrite (bind_eq _ _ _ _ _ Hx).
    apply IH; [|done]. intros y w2 Hy. apply Hbody. by right.
Qed.

Lemma print_tree_returns_with fuel : ∀ self indent w,
  linked (heap w) → self < length (heap w) →
  length (heap w) ≤ self + fuel →
  ∃ w', print_tree fuel self indent w = Done () w' ∧ heap w' = heap w.
Proof.
  induction fuel as [|fuel IH]; intros self indent w Hl Hself Hfuel; [lia|].
  destruct (lookup_lt_is_Some_2 _ _ Hself) as [n Hn]. simpl.
  rewrite (bind_eq _ _ w n w) by by apply get_node_eq.
  apply (for_each_returns _ _ (λ w1, heap w1 = heap w)); [|done].
  intros [a c] w1 Hac Hw1.
  destruct (Hl _ _ _ _ Hn Hac) as (Hlt & m & Hm & _). simpl.
  rewrite (bind_eq _ _ w1 m w1) by (apply get_node_eq; by rewrite Hw1).
  rewrite (bind_eq _ _ w1 ()
    (mkWorld (heap w1) (rng w1) (stdout w1 ++ [tree_line indent a m])))
    by done.
  destruct (IH c (indent + 2)
    (mkWorld (heap w1) (rng w1) (stdout w1 ++ [tree_line indent a m])))
    as (w2 & Hp & Hh); simpl.
  - by rewrite Hw1.
  - rewrite Hw1. by eapply lookup_lt_Some.
  - rewrite Hw1. lia.
  - exists w2. split; [done|]. rewrite Hh. simpl. done.
Qed.

Lemma get_best_returns_with self state w n :
  linked (heap w) → heap w !! self = Some n →
  (children n = [] → get_actions state ≠ []) →
  ∃ a w', get_best self state w = Done a w'.
Proof.
  intros Hl Hn Hact. unfold get_best.
  rewrite (bind_eq _ _ w n w) by by apply get_node_eq.
  destruct (linked_deref _ _ _ Hl Hn) as [kids Hk].
  pose proof (deref_fst _ _ _ Hk) as Hfst.
  destruct (children n) as [|c cs] eqn:Hc.
  - destruct (choice_returns (get_actions state) w) as (a & _ & Hch); [auto|].
    by eexists _, _.
  - destruct kids as [|k ks]; [done|].
    rewrite (bind_eq _ _ w (k :: ks) w) by (apply get_kids_eq; by rewrite Hc).
    by eexists _, _.
Qed.

Lemma iterate_returns_with μ fuel count : ∀ t battle_state w,
  well_behaved μ →
  (∀ g, μ (copy_undeterministic battle_state g).1 ≤ μ battle_state) →
  wf_parents (heap w) → linked (heap w) → t < length (heap w) →
  2 * μ battle_state + length (heap w) + 2 * count + 2 < fuel →
  ∃ w', iterate fuel count t battle_state w = Done () w' ∧
    wf_parents (heap w') ∧ linked (heap w') ∧
    length (heap w) ≤ length (heap w') ≤ length (heap w) + 2 * count.
Proof.
  induction count as [|count IH]; intros t bs w Hwb Hcopy Hwf Hl Ht Hfuel;
    simpl.
  - exists w. split_and!; [done..|lia|lia].
  - rewrite (bind_eq _ _ _ (copy_undeterministic bs (rng w)).1
      (mkWorld (heap w) (copy_undeterministic bs (rng w)).2 (stdout w)))
      by by apply with_rng_Done.
    destruct (select_returns_with μ fuel t (copy_undeterministic bs (rng w)).1
      (mkWorld (heap w) (copy_undeterministic bs (rng w)).2 (stdout w)))
      as (r & w1 & Hs); simpl; [done..| |].
    { specialize (Hcopy (rng w)). lia. }
    pose proof (select_grow _ _ _ _ _ _ Hs) as Hg.
    pose proof (select_length _ _ _ _ _ _ Hs) as Hlen. simpl in Hg, Hlen.
    unfold tree_step. rewrite (bind_eq _ _ _ () w1).
    2:{ by rewrite (bind_eq _ _ _ _ _ Hs). }
    destruct (IH t bs w1) as (w' & Hit & Hwf' & Hl' & Hlen'); [done..| | | | |].
    + by eapply wf_parents_rtc_grow.
    + by eapply linked_rtc_grow.
    + lia.
    + lia.
    + exists w'. split_and!; [done..|lia|lia].
Qed.

(** X18. On a game that keeps its contract and ends, in every world
    reached from the empty heap by constructing nodes and calling the
    methods, [choose_card] on a state that has not ended returns when
    given enough fuel, whatever the number of iterations and with or
    without the printing of the tree: a decision raises no exception. *)
Theorem choose_card_returns μ fuel agent battle_state w :
  well_behaved μ →
  (∀ g, μ (copy_undeterministic battle_state g).1 ≤ μ battle_state) →
  reachable w →
  ended battle_state = false →
  2 * μ battle_state + length (heap w) + 2 * iterations agent + 4 < fuel →
  ∃ e w', choose_card fuel agent battle_state w = Done e w'.
Proof.
  intros Hwb Hcopy Hw He Hfuel.
  destruct (Hwb _ He) as (Hne & _).
  assert (Hgen : ∃ e w',
    (t ← new_node (agent_param agent) None;
     iterate fuel (iterations agent) t battle_state;;
     best_action ← get_best t battle_state;
     (if verbose agent then print_tree fuel t 0 else mret ());;
     mret (to_action best_action battle_state)) w = Done e w').
  { set (w1 := mkWorld (heap w ++ [init_node (agent_param agent) None])
                       (rng w) (stdout w)).
    rewrite (bind_eq _ _ w (length (heap w)) w1) by done.
    assert (Hgrow : grow (heap w) (heap w1))
      by (apply (grow_node _ _ None); by intros).
    destruct (iterate_returns_with μ fuel (iterations agent) (length (heap w))
                battle_state w1 Hwb Hcopy)
      as (w2 & Hit & Hwf2 & Hl2 & Hlen2); simpl.
    - eapply wf_parents_rtc_grow; [by apply reachable_wf_parents|].
      by apply rtc_once.
    - eapply linked_grow; [by apply reachable_linked|done].
    - rewrite length_app. simpl. lia.
    - rewrite length_app. simpl. lia.
    - simpl in Hlen2. rewrite length_app in Hlen2. simpl in Hlen2.
      rewrite (bind_eq _ _ _ _ _ Hit).
      destruct (lookup_lt_is_Some_2 (heap w2) (length (heap w))) as [n Hn];
        [lia|].
      destruct (get_best_returns_with (length (heap w)) battle_state w2 n)
        as (a & w3 & Hbest); [done..|].
      rewrite (bind_eq _ _ _ _ _ Hbest).
      apply get_best_frame in Hbest as [Hh3 _].
      destruct (verbose agent).
      + destruct (print_tree_returns_with fuel (length (heap w)) 0 w3)
          as (w4 & Hp & _); rewrite ?Hh3; [done|lia|lia|].
        rewrite (bind_eq _ _ _ _ _ Hp). by eexists _, _.
      + by eexists _, _. }
  unfold choose_card.
  destruct (get_actions battle_state) as [|a [|b l]]; [done| |done].
  by eexists _, _.
Qed.

(** X19. In every world reached from the empty heap by constructing nodes
    and calling the methods, [print_tree] on a node of the heap returns
    when its fuel covers the nodes constructed after that node, and leaves
    the heap as it was: the tree has no cycle to loop on. *)
Theorem print_tree_returns fuel self indent w :
  reachable w →
  self < length (heap w) →
  length (heap w) ≤ self + fuel →
  ∃ w', print_tree fuel self indent w = Done () w' ∧ heap w' = heap w.
Proof.
  intros Hw. apply print_tree_returns_with. by apply reachable_linked.
Qed.

(** ** The step of [select] into a child *)

(** A path that starts at a node of [h] is a path of [h]: what is done to
    the heap later keeps the parents. *)
Lemma on_path_old h h' L i :
  wf_parents h → extends h h' → L < length h →
  on_path h' L i → on_path h L i.
Proof.
  intros Hwf He HL Hp. unfold on_path in *.
  induction Hp as [|x y z (n' & Hn' & Hpar) _ IH]; [done|].
  destruct (lookup_lt_is_Some_2 _ _ HL) as [n Hn].
  destruct (He _ _ Hn) as (n'' & Hn'' & Hp'' & _).
  assert (n'' = n') as -> by congruence.
  assert (Hpn : parent n = Some y) by congruence.
  eapply rtc_l; [by exists n|]. apply IH.
  specialize (Hwf _ _ _ Hn Hpn). lia.
Qed.

(** The ancestors of a new child are the node it was made for and the
    ancestors of that node. *)
Lemma new_child_path h self n a i :
  wf_parents h → h !! self = Some n → a ∉ tried_of n →
  on_path (<[self := append_child a (length h) n]>
             (h ++ [init_node (param n) (Some self)])) (length h) i →
  i = length h ∨ on_path h self i.
Proof.
  intros Hwf Hn Hna Hp.
  pose proof (lookup_lt_Some _ _ _ Hn) as Hself.
  eapply on_path_inv in Hp as [->|(p & Hpar & Hp)]; [by left| |].
  2:{ rewrite list_lookup_insert_ne by lia. by apply list_lookup_middle. }
  right. simpl in Hpar. injection Hpar as <-.
  eapply on_path_old; [done| |done|done].
  by apply rtc_mut_extends, child_mut.
Qed.

(** [select] leaves alone every node that is neither the node it is called
    on, nor above it, nor below it. *)
Lemma select_frame fuel : ∀ self state w r w',
  wf_parents (heap w) → linked (heap w) →
  select fuel self state w = Done r w' →
  ∀ i, i < length (heap w) →
    ¬ on_path (heap w) self i → ¬ on_path (heap w) i self →
    heap w' !! i = heap w !! i.
Proof.
  induction fuel as [|fuel IH];
    intros self state w r w' Hwf Hl Hs i Hi Hup Hdown; [discriminate Hs|].
  simpl in Hs. destruct (ended state).
  { apply bind_Done in Hs as (u & w1 & Hb & [_ <-]%ret_Done).
    apply backpropagate_Done_spec in Hb as (_ & _ & _ & Hoff); [|done].
    by apply Hoff. }
  apply bind_Done in Hs as (n & w0 & [Hn ->]%get_node_Done & Hs).
  assert (Hne : i ≠ self) by (intros ->; apply Hup, rtc_refl).
  assert (Hnew : ∀ a, a ∉ tried_of n →
    let h1 := <[self := append_child a (length (heap w)) n]>
                (heap w ++ [init_node (param n) (Some self)]) in
    wf_parents h1 ∧ linked h1 ∧ h1 !! i = heap w !! i ∧
    ¬ on_path h1 (length (heap w)) i ∧ ¬ on_path h1 i (length (heap w))).
  { intros a Hna h1.
    assert (Hg : grow (heap w) h1) by by constructor.
    assert (Hwf1 : wf_parents h1).
    { eapply wf_parents_rtc_grow; [done|]. by apply rtc_once. }
    split_and!; [done|by eapply linked_grow| | |].
    - unfold h1. rewrite list_lookup_insert_ne by done. by apply lookup_app_l.
    - intros Hp. apply new_child_path in Hp as [->|Hp]; [lia|done..].
    - intros Hp%on_path_le; [lia|done]. }
  destruct (expand_triggered _ _).
  { unfold expand in Hs.
    apply bind_Done in Hs as (n0 & w0 & [Hn0 ->]%get_node_Done & Hs).
    assert (n0 = n) as -> by congruence.
    apply bind_Done in Hs
      as (a & w1 & (_ & Ha%list_elem_of_lookup_2 & ->)%choice_Done & Hs).
    apply list_elem_of_filter in Ha as [Hna _].
    apply bind_Done in Hs as (c0 & w2 & [-> ->]%new_node_Done & Hs).
    apply bind_Done in Hs as (u1 & w3 & (m & Hm & ->)%modify_node_Done & Hs).
    apply bind_Done in Hs as (s1 & w4 & [-> ->]%with_rng_Done & Hs).
    apply bind_Done in Hs as (x & w5 & [Hh _]%rollout_frame & Hs).
    apply bind_Done in Hs as (u2 & w6 & Hb & [_ <-]%ret_Done).
    simpl in *. rewrite (lookup_app_l_Some _ _ _ _ Hn) in Hm.
    injection Hm as <-.
    destruct (Hnew a Hna) as (Hwf1 & _ & Heq & Hnp & _).
    apply backpropagate_Done_spec in Hb as (_ & _ & _ & Hoff);
      [|by rewrite Hh].
    rewrite Hh in Hoff. by rewrite Hoff. }
  apply bind_Done in Hs as (kids & w1 & [Hk ->]%get_kids_Done & Hs).
  apply bind_Done in Hs as (pick & w2 & Hpick & Hs).
  apply bind_Done in Hs as (s1 & w3 & [-> ->]%with_rng_Done & Hs).
  assert (Hold : ∀ a c w2, heap w2 = heap w → (a, c) ∈ children n →
    select fuel c (step state a (rng w2)).1
      (mkWorld (heap w2) (step state a (rng w2)).2 (stdout w2)) = Done r w' →
    heap w' !! i = heap w !! i).
  { intros a c wx Hwx Hac Hsel.
    destruct (Hl _ _ _ _ Hn Hac) as (_ & m & Hm & Hpm & _).
    assert (Hpar : is_parent (heap w) c self) by by exists m.
    eapply IH in Hsel; simpl; rewrite ?Hwx; [|done|done|exact Hi| |].
    - rewrite Hsel. simpl. by rewrite Hwx.
    - intros Hp. eapply on_path_inv in Hp as [->|(p & Hpp & Hp)]; [| |exact Hm].
      + apply Hdown. by apply rtc_once.
      + assert (p = self) as -> by congruence. done.
    - intros Hp. apply Hdown. eapply rtc_r; done. }
  destruct (ucb_loop _ _ _ _ _ _) as [[a c]|] eqn:Hloop.
  { apply ret_Done in Hpick as [<- <-].
    apply ucb_loop_elem in Hloop as [|Hin]; [done|].
    rewrite (deref_fst _ _ _ Hk) in Hin. by apply (Hold a c w). }
  unfold fallback in Hpick.
  apply bind_Done in Hpick as (u1 & wa & ->%print_Done & Hpick).
  apply bind_Done in Hpick as (u2 & wb & ->%print_Done & Hpick).
  apply bind_Done in Hpick as (a & wc & (_ & _ & ->)%choice_Done & Hpick).
  simpl in Hpick.
  destruct (list_find _ _) as [[j [a' c]]|] eqn:Hfind.
  { apply ret_Done in Hpick as [<- <-].
    apply list_find_Some in Hfind as (Hj%list_elem_of_lookup_2 & Heq & _).
    simpl in Heq. subst a'. eapply (Hold a c); [|done|exact Hs]. done. }
  apply bind_Done in Hpick as (c0 & wd & [-> ->]%new_node_Done & Hpick).
  apply bind_Done in Hpick
    as (u3 & we & (m & Hm & ->)%modify_node_Done & [<- <-]%ret_Done).
  simpl in *. rewrite (lookup_app_l_Some _ _ _ _ Hn) in Hm.
  injection Hm as <-.
  assert (Hna : a ∉ tried_of n).
  { apply list_find_None in Hfind.
    unfold tried_of. intros ([a' c] & -> & Hin)%list_elem_of_fmap.
    by eapply Forall_forall in Hfind. }
  destruct (Hnew a Hna) as (Hwf1 & Hl1 & Heq & Hnp & Hnd).
  eapply IH in Hs; simpl; [|done|done| | |].
  - simpl in Hs. by rewrite Hs.
  - rewrite length_insert, length_app. simpl. lia.
  - done.
  - done.
Qed.

(** A child is held once: the children of a node are distinct nodes. *)
Lemma refs_distinct_grow h h' :
  linked h → (∀ i n, h !! i = Some n → NoDup (children n).*2) →
  grow h h' →
  ∀ i n, h' !! i = Some n → NoDup (children n).*2.
Proof.
  intros Hl Hnd Hg. destruct Hg as [h p par Hp|h j m r Hm|h j m a Hm Ha];
    intros i n Hn.
  - apply lookup_snoc_Some in Hn as [[_ Hn]|[_ <-]]; [by eapply Hnd|].
    simpl. constructor.
  - apply list_lookup_insert_Some in Hn as [(<- & <- & _)|[_ Hn]];
      [exact (Hnd _ _ Hm)|by eapply Hnd].
  - apply list_lookup_insert_Some in Hn as [(<- & <- & _)|[_ Hn]].
    + simpl. rewrite fmap_app. apply NoDup_app. split_and!.
      * exact (Hnd _ _ Hm).
      * intros c Hc Hc'. simpl in Hc'.
        apply list_elem_of_singleton in Hc'. subst c.
        apply list_elem_of_fmap in Hc as ([a' c'] & Heq & Hin).
        destruct (Hl _ _ _ _ Hm Hin) as (_ & m' & Hm'%lookup_lt_Some & _).
        simpl in Heq. lia.
      * apply NoDup_singleton.
    + apply lookup_snoc_Some in Hn as [[_ Hn]|[_ <-]]; [by eapply Hnd|].
      simpl. constructor.
Qed.

Lemma refs_distinct_rtc_grow h h' :
  linked h → (∀ i n, h !! i = Some n → NoDup (children n).*2) →
  rtc grow h h' →
  ∀ i n, h' !! i = Some n → NoDup (children n).*2.
Proof.
  intros Hl Hnd Hg. induction Hg as [|h1 h2 h3 Hg _ IH]; [done|].
  apply IH; [by eapply linked_grow|by eapply refs_distinct_grow].
Qed.

Lemma reachable_refs_distinct w :
  reachable w → ∀ i n, heap w !! i = Some n → NoDup (children n).*2.
Proof.
  intros Hw. induction Hw as [|w c w' Hw IH Hrun]; [done|].
  apply run_grow in Hrun.
  eapply refs_distinct_rtc_grow; [by apply reachable_linked|done..].
Qed.


(** ** What [expand] adds *)

(** X11. In every world reached from the empty heap by constructing nodes
    and calling the methods, an [expand] that returns has added exactly one
    node: a leaf constructed with the node as parent and with its
    parameter, appended to the children of the node under the unexplored
    action at the position drawn.  The leaf holds one visit and one
    result, the value that [rollout] returns on the state stepped by that
    action; the node and each of its ancestors have that result and one
    more visit, and no other node has changed. *)
Theorem expand_adds_one_leaf fuel self state available w c w' n :
  reachable w →
  heap w !! self = Some n →
  expand fuel self state available w = Done c w' →
  c = length (heap w) ∧
  length (heap w') = S (length (heap w)) ∧
  stdout w' = stdout w ∧
  ∃ a x,
    unexplored_of n available
      !! (tape (rng w) (pos (rng w)) mod length (unexplored_of n available))
      = Some a ∧
    a ∈ available ∧ (a ∉ tried_of n) ∧
    (let h1 := <[self := append_child a c n]>
                 (heap w ++ [init_node (param n) (Some self)]) in
     let sg := step state a (advance (rng w)) in
     rollout fuel c sg.1 (mkWorld h1 sg.2 (stdout w))
       = Done x (mkWorld h1 (rng w') (stdout w))) ∧
    heap w' !! c = Some (mkNode [] (Some self) [x] 1 (param n)) ∧
    heap w' !! self =
      Some (mkNode (children n ++ [(a, c)]) (parent n) (results n ++ [x])
                   (visits n + 1) (param n)) ∧
    (∀ i m, heap w !! i = Some m → i ≠ self → on_path (heap w) self i →
       heap w' !! i = Some (visited x m)) ∧
    (∀ i, i < length (heap w) → ¬ on_path (heap w) self i →
       heap w' !! i = heap w !! i).
Proof.
  intros Hw Hn Hx. unfold expand in Hx.
  pose proof (reachable_wf_parents _ Hw) as Hwf.
  apply bind_Done in Hx as (n0 & w0 & [Hn0 ->]%get_node_Done & Hx).
  assert (n0 = n) as -> by congruence.
  apply bind_Done in Hx as (a & w1 & (_ & Hat & ->)%choice_Done & Hx).
  pose proof (list_elem_of_lookup_2 _ _ _ Hat) as Ha.
  apply list_elem_of_filter in Ha as [Hna Hav].
  apply bind_Done in Hx as (c0 & w2 & [-> ->]%new_node_Done & Hx).
  apply bind_Done in Hx as (u1 & w3 & (m & Hm & ->)%modify_node_Done & Hx).
  apply bind_Done in Hx as (s1 & w4 & [-> ->]%with_rng_Done & Hx).
  apply bind_Done in Hx as (x & w5 & Hroll & Hx).
  pose proof (rollout_frame _ _ _ _ _ _ Hroll) as [Hh Ho].
  apply bind_Done in Hx as (u2 & w6 & Hb & [<- <-]%ret_Done).
  simpl in *. rewrite (lookup_app_l_Some _ _ _ _ Hn) in Hm.
  injection Hm as <-.
  pose proof (lookup_lt_Some _ _ _ Hn) as Hself.
  set (h1 := <[self := append_child a (length (heap w)) n]>
               (heap w ++ [init_node (param n) (Some self)])) in *.
  assert (Hc1 : h1 !! length (heap w) = Some (init_node (param n) (Some self))).
  { unfold h1. rewrite list_lookup_insert_ne by lia.
    by apply list_lookup_middle. }
  assert (Hs1 : h1 !! self = Some (append_child a (length (heap w)) n)).
  { unfold h1. apply list_lookup_insert_eq. rewrite length_app. simpl. lia. }
  assert (Hold : ∀ i, i < length (heap w) → i ≠ self → h1 !! i = heap w !! i).
  { intros i Hi Hne. unfold h1. rewrite list_lookup_insert_ne by done.
    by apply lookup_app_l. }
  pose proof (backpropagate_children _ _ _ _ _ _ Hb) as [Hlen _].
  apply backpropagate_Done_spec in Hb as (Hrng & Hout & Hon & Hoff).
  2:{ rewrite Hh. eapply wf_parents_rtc_grow; [done|].
      apply rtc_once. by constructor. }
  rewrite Hh in Hon, Hoff, Hlen. split_and!; [done| |congruence|].
  { rewrite Hlen. unfold h1. rewrite length_insert, length_app. simpl. lia. }
  exists a, x. split_and!; [done..| | | | |].
  - etrans; [exact Hroll|]. f_equal. destruct w5 as [h5 g5 o5]. simpl in *.
    f_equal; [exact Hh|by rewrite Hrng|exact Ho].
  - by rewrite (Hon _ _ Hc1 (rtc_refl _ _)).
  - rewrite (Hon _ _ Hs1); [done|].
    apply rtc_once. by exists (init_node (param n) (Some self)).
  - intros i m Hm Hne Hp.
    destruct (child_heap_path _ _ _ a _ _ Hn Hna Hm Hp) as (_ & _ & _ & _ & Hp').
    apply Hon; [|done]. rewrite Hold; [done| |done].
    by eapply lookup_lt_Some.
  - intros i Hi Hp.
    assert (Hne : i ≠ self) by (intros ->; apply Hp, rtc_refl).
    rewrite Hoff; [by apply Hold|].
    intros Hp'. apply new_child_path in Hp' as [->|Hp']; [lia|done..].
Qed.
Lemma deref_lookup h l ks j k :
  deref h l = Some ks → ks !! j = Some k →
  l !! j = Some k.1 ∧ h !! k.1.2 = Some k.2.
Proof.
  intros Hd%mapM_Some Hk.
  destruct (Forall2_lookup_r _ _ _ _ _ Hd Hk) as ([a c] & Hl & Hf).
  simpl in Hf. destruct (h !! c) as [m|] eqn:Hm; simplify_eq/=. done.
Qed.

(** The children read from the heap are distinct when the nodes they
    refer to are. *)
Lemma deref_distinct h l ks kj k :
  deref h l = Some ks → NoDup l.*2 →
  kj ∈ ks → k ∈ ks → kj ≠ k → kj.1.2 ≠ k.1.2.
Proof.
  intros Hd Hnd [j1 Hj1]%list_elem_of_lookup_1 [j2 Hj2]%list_elem_of_lookup_1
    Hne Heq.
  destruct (deref_lookup _ _ _ _ _ Hd Hj1) as [Hl1 _].
  destruct (deref_lookup _ _ _ _ _ Hd Hj2) as [Hl2 _].
  assert (j1 = j2) as ->; [|congruence].
  eapply NoDup_lookup; [exact Hnd| |].
  - rewrite list_lookup_fmap, Hl1. done.
  - rewrite list_lookup_fmap, Hl2. simpl. by rewrite Heq.
Qed.

(** The step of [select] into a child returns, on a game that keeps its
    contract: the child and the node have one more visit, the children of
    the node are as they were, and no other child of the node has been
    touched. *)
Lemma descend_visits P μ fuel self state w n a c :
  keeps_contract P μ → P state → ended state = false →
  wf_parents (heap w) → linked (heap w) →
  heap w !! self = Some n → (a, c) ∈ children n → a ∈ get_actions state →
  2 * μ state + length (heap w) < fuel →
  ∃ r w' m m', descend fuel state (a, c) w = Done r w' ∧
    heap w !! c = Some m ∧ heap w' !! c = Some m' ∧
    visits m' = visits m + 1 ∧ parent m' = parent m ∧ param m' = param m ∧
    (∃ n', heap w' !! self = Some n' ∧ children n' = children n ∧
           visits n' = visits n + 1) ∧
    (∀ a' c', (a', c') ∈ children n → c' ≠ c →
       heap w' !! c' = heap w !! c').
Proof.
  intros Hwb HP He Hwf Hl Hn Hac Ha Hfuel.
  destruct (Hwb _ HP He) as (_ & _ & Hdec).
  destruct (Hdec a (rng w) Ha) as [HP' Hlt].
  destruct (Hl _ _ _ _ Hn Hac) as (Hsc & m & Hm & Hpm & _).
  set (w1 := mkWorld (heap w) (step state a (rng w)).2 (stdout w)).
  destruct (select_returns_from P μ fuel c (step state a (rng w)).1 w1)
    as (r & w' & Hs); [done..| | |].
  { simpl. by eapply lookup_lt_Some. }
  { simpl. lia. }
  exists r, w', m.
  destruct (select_visits_path _ _ _ w1 _ _ Hwf Hl Hs) as (x & Hx).
  simpl in Hx.
  destruct (Hx c m Hm (rtc_refl _ _)) as (m' & Hm' & _ & Hvm).
  destruct (Hx self n Hn) as (n' & Hn' & _ & Hvn).
  { apply rtc_once. by exists m. }
  destruct (select_children_frame _ _ _ w1 _ _ m Hl Hm Hs) as [Hbelow _].
  simpl in Hbelow.
  destruct (Hbelow self n Hsc Hn) as (n'' & Hn'' & Hcn).
  assert (n'' = n') as -> by congruence.
  pose proof (rtc_mut_extends _ _ (select_mut _ _ _ w1 _ _ Hs)) as Hext.
  simpl in Hext.
  destruct (Hext _ _ Hm) as (m'' & Hm'' & Hpar & Hprm & _).
  assert (m'' = m') as -> by congruence.
  exists m'. split_and!; [|done..| |].
  - unfold descend.
    by rewrite (bind_eq _ _ _ (step state a (rng w)).1 w1)
      by by apply with_rng_Done.
  - by exists n'.
  - intros a' c' Hac' Hne.
    destruct (Hl _ _ _ _ Hn Hac') as (Hsc' & m2 & Hm2 & Hpm2 & _).
    apply (select_frame _ _ _ w1 _ _ Hwf Hl Hs); simpl.
    + by eapply lookup_lt_Some.
    + intros Hp. eapply on_path_inv in Hp as [->|(p & Hpp & Hp)];
        [done| |exact Hm].
      assert (p = self) as -> by congruence.
      apply on_path_le in Hp; [lia|done].
    + intros Hp. eapply on_path_inv in Hp as [->|(p & Hpp & Hp)];
        [done| |exact Hm2].
      assert (p = self) as -> by congruence.
      apply on_path_le in Hp; [lia|done].
Qed.

(** [select] returns, having stepped into the first legal child with the
    greatest score. *)
Lemma select_first_max_visits P μ fuel self state w n kids :
  keeps_contract P μ → P state → reachable w →
  2 * μ state + length (heap w) + 2 < S fuel →
  ended state = false → heap w !! self = Some n →
  deref (heap w) (children n) = Some kids →
  expand_triggered n (get_actions state) = false →
  let cands := filter (λ k, k.1.1 ∈ get_actions state) kids in
  cands ≠ [] →
  strict_weak (ucb1 (param n) kids <$> cands) →
  Forall (λ k, f_gt (ucb1 (param n) kids k) f_neg_inf = true) cands →
  ∃ i k r w', first_max (ucb1 (param n) kids) cands i ∧ cands !! i = Some k ∧
    select (S fuel) self state w = Done r w' ∧
    descend fuel state k.1 w = Done r w' ∧
    (∃ m', heap w' !! k.1.2 = Some m' ∧ visits m' = visits k.2 + 1) ∧
    (∀ kj, kj ∈ kids → kj ≠ k → heap w' !! kj.1.2 = Some kj.2) ∧
    (∃ n', heap w' !! self = Some n' ∧ children n' = children n ∧
           visits n' = visits n + 1).
Proof.
  intros Hwb HP Hw Hfuel He Hn Hk Hx cands Hne Hsw Hgt.
  pose proof (reachable_wf_parents _ Hw) as Hwf.
  pose proof (reachable_linked _ Hw) as Hl.
  pose proof (reachable_refs_distinct _ Hw _ _ Hn) as Hrefs.
  destruct (select_first_max fuel self state w n kids He Hn Hx Hk Hne Hsw Hgt)
    as (i & k & Hfm & Hi & Hsel).
  fold cands in Hfm, Hi.
  assert (Hin : k ∈ cands) by by eapply list_elem_of_lookup_2.
  apply list_elem_of_filter in Hin as [Hleg Hin].
  destruct (list_elem_of_lookup_1 _ _ Hin) as [j Hj].
  destruct (deref_lookup _ _ _ _ _ Hk Hj) as [Hcj Hmj].
  apply list_elem_of_lookup_2 in Hcj.
  assert (Hpair : (k.1.1, k.1.2) = k.1) by by destruct k as [[? ?] ?].
  destruct (descend_visits P μ fuel self state w n k.1.1 k.1.2)
    as (r & w' & m0 & m' & Hd & Hm0 & Hm' & Hvm & _ & _ & Hself & Hsib);
    [done..|by rewrite Hpair|done|lia|].
  assert (m0 = k.2) as -> by congruence.
  rewrite Hpair in Hd.
  exists i, k, r, w'. split_and!; [done|done| |done| |  |done].
  - by rewrite Hsel.
  - by exists m'.
  - intros kj Hkj Hneq.
    destruct (list_elem_of_lookup_1 _ _ Hkj) as [j' Hj'].
    destruct (deref_lookup _ _ _ _ _ Hk Hj') as [Hcj' Hmj'].
    rewrite <- Hmj'. apply (Hsib kj.1.1).
    + apply list_elem_of_lookup_2 in Hcj'. by destruct kj as [[? ?] ?].
    + by apply (deref_distinct _ _ _ kj k Hk Hrefs).
Qed.

(** ** The selection rule of [select] *)


(** C2 (amended). The [N] under the logarithm of the score is the sum of
    the visits of all the children of the node, whether their action is
    legal or not: [select] returns, having recursed into the first legal
    child whose score, computed with that [N], is the greatest; that child
    and the node have one more visit, and no other child of the node has
    been touched.  The scores of the legal children are taken to be
    numbers above [-inf], compared as numbers are; the game keeps its
    contract from the state on, and the fuel covers the depth of the
    search. *)
Theorem select_total_counts_all_children P μ fuel self state w n kids :
  keeps_contract P μ → P state →
  reachable w →
  2 * μ state + length (heap w) + 2 < S fuel →
  ended state = false →
  heap w !! self = Some n →
  deref (heap w) (children n) = Some kids →
  expand_triggered n (get_actions state) = false →
  let cands := filter (λ k, k.1.1 ∈ get_actions state) kids in
  let N := sum_list_with (λ k, visits k.2) kids in
  let L := if bool_decide (0 < N) then f_log (of_int N) else f_zero in
  let sc := λ k : Action * ref * Node,
    if bool_decide (visits k.2 = 0) then f_inf
    else f_add (f_div (f_sum (results k.2)) (of_int (visits k.2)))
               (f_mul (param n) (f_sqrt (f_div L (of_int (visits k.2))))) in
  cands ≠ [] →
  strict_weak (sc <$> cands) →
  Forall (λ k, f_gt (sc k) f_neg_inf = true) cands →
  ∃ i k r w', first_max sc cands i ∧ cands !! i = Some k ∧
    select (S fuel) self state w = Done r w' ∧
    descend fuel state k.1 w = Done r w' ∧
    (∃ m', heap w' !! k.1.2 = Some m' ∧ visits m' = visits k.2 + 1) ∧
    (∀ kj, kj ∈ kids → kj ≠ k → heap w' !! kj.1.2 = Some kj.2) ∧
    (∃ n', heap w' !! self = Some n' ∧ children n' = children n ∧
           visits n' = visits n + 1).
Proof.
  intros Hwb HP Hw Hfuel He Hn Hk Hx cands N L sc Hne Hsw Hgt.
  by apply (select_first_max_visits P μ fuel self state w n kids).
Qed.

(** ** The fallback of [select], from call to return *)

(** C8. On a state that has not ended, when no expansion is due and the
    action of no child is legal, [select] returns.  Its fallback logs two
    lines, takes the legal action at the position drawn, and goes to the
    first child with that action if there is one and to a new child,
    appended to the children, otherwise (which is the case here); [select]
    then steps the state and recurses into that child: the new child names
    the node as its parent and has one visit, the node has one more child
    and one more visit, and the old children have not been touched.  The
    game keeps its contract from the state on, and the fuel covers the
    depth of the search. *)
Theorem select_fallback_repairs P μ fuel self state w n kids :
  keeps_contract P μ → P state →
  reachable w →
  2 * μ state + length (heap w) + 2 < S fuel →
  ended state = false →
  heap w !! self = Some n →
  deref (heap w) (children n) = Some kids →
  expand_triggered n (get_actions state) = false →
  Forall (λ ac, ac.1 ∉ get_actions state) (children n) →
  let actions := get_actions state in
  let out := stdout w ++
    ["[DEBUG] no UCB pick; legal actions = " +:+ str_actions actions;
     "[DEBUG] children actions    = " +:+ str_actions (children n).*1] in
  let c := length (heap w) in
  ∃ a r w',
    actions !! (tape (rng w) (pos (rng w)) mod length actions) = Some a ∧
    fallback self n actions w =
      match list_find (λ ac, ac.1 = a) (children n) with
      | Some (_, (_, c')) =>
          Done (a, c') (mkWorld (heap w) (advance (rng w)) out)
      | None =>
          Done (a, c)
            (mkWorld (<[self := append_child a c n]>
                        (heap w ++ [init_node (param n) (Some self)]))
                     (advance (rng w)) out)
      end ∧
    Forall (λ ac, ac.1 ≠ a) (children n) ∧
    select (S fuel) self state w = Done r w' ∧
    descend fuel state (a, c)
      (mkWorld (<[self := append_child a c n]>
                  (heap w ++ [init_node (param n) (Some self)]))
               (advance (rng w)) out) = Done r w' ∧
    (∃ m', heap w' !! c = Some m' ∧ parent m' = Some self ∧
           param m' = param n ∧ visits m' = 1) ∧
    (∃ n', heap w' !! self = Some n' ∧
           children n' = children n ++ [(a, c)] ∧
           visits n' = visits n + 1) ∧
    (∀ kj, kj ∈ kids → heap w' !! kj.1.2 = Some kj.2).
Proof.
  intros Hwb HP Hw Hfuel He Hn Hk Hx Hstale actions out c.
  pose proof (reachable_wf_parents _ Hw) as Hwf.
  pose proof (reachable_linked _ Hw) as Hl.
  pose proof (lookup_lt_Some _ _ _ Hn) as Hself.
  destruct (Hwb _ HP He) as (Hact & _ & _).
  assert (Hlt : tape (rng w) (pos (rng w)) mod length actions < length actions).
  { apply Nat.mod_upper_bound. unfold actions.
    by destruct (get_actions state). }
  destruct (lookup_lt_is_Some_2 _ _ Hlt) as [a Ha].
  assert (Hleg : a ∈ actions) by by eapply list_elem_of_lookup_2.
  assert (Hnone : Forall (λ ac, ac.1 ≠ a) (children n)).
  { apply Forall_forall. intros ac Hac Heq.
    eapply Forall_forall in Hstale; [|done]. apply Hstale. by rewrite Heq. }
  assert (Hna : a ∉ tried_of n).
  { unfold tried_of. intros ([a' c'] & -> & Hin)%list_elem_of_fmap.
    by eapply Forall_forall in Hnone. }
  pose proof (fallback_eq self n actions w a Hn Ha) as Hfb. simpl in Hfb.
  fold out c in Hfb.
  set (h1 := <[self := append_child a c n]>
               (heap w ++ [init_node (param n) (Some self)])) in *.
  set (w1 := mkWorld h1 (advance (rng w)) out).
  assert (Hg : grow (heap w) h1) by by constructor.
  assert (Hc1 : h1 !! c = Some (init_node (param n) (Some self))).
  { unfold h1, c. rewrite list_lookup_insert_ne by lia.
    by apply list_lookup_middle. }
  assert (Hs1 : h1 !! self = Some (append_child a c n)).
  { unfold h1. apply list_lookup_insert_eq. rewrite length_app. simpl. lia. }
  destruct (descend_visits P μ fuel self state w1 (append_child a c n) a c)
    as (r & w' & m0 & m' & Hd & Hm0 & Hm' & Hvm & Hpm & Hqm & Hnode & Hsib);
    [done|done|done| | |done| |done| |].
  { eapply wf_parents_rtc_grow; [done|]. by apply rtc_once. }
  { by eapply linked_grow. }
  { apply elem_of_app. right. by left. }
  { simpl. unfold h1. rewrite length_insert, length_app. simpl. lia. }
  simpl in Hm0. assert (m0 = init_node (param n) (Some self)) as ->
    by congruence.
  exists a, r, w'. split_and!; [done|done|done| |done| |done|].
  - assert (Hfind : list_find (λ ac, ac.1 = a) (children n) = None)
      by by apply list_find_None.
    rewrite Hfind in Hfb.
    rewrite (select_no_pick fuel self state w n kids He Hn Hx Hk).
    + by rewrite (bind_eq _ _ _ _ _ Hfb).
    + apply ucb_loop_none.
      by eapply (deref_Forall _ _ _ (λ a, a ∉ get_actions state)).
  - exists m'. split_and!; [done..|]. by rewrite Hvm.
  - intros kj Hkj.
    destruct (list_elem_of_lookup_1 _ _ Hkj) as [j Hj].
    destruct (deref_lookup _ _ _ _ _ Hk Hj) as [Hcj Hmj].
    apply list_elem_of_lookup_2 in Hcj.
    assert (Hin : (kj.1.1, kj.1.2) ∈ children n) by by destruct kj as [[? ?] ?].
    destruct (Hl _ _ _ _ Hn Hin) as (Hsc & _).
    pose proof (lookup_lt_Some _ _ _ Hmj) as Hltj.
    rewrite (Hsib kj.1.1 kj.1.2).
    + simpl. unfold h1. rewrite list_lookup_insert_ne by lia.
      by apply lookup_app_l_Some.
    + simpl. apply elem_of_app. by left.
    + unfold c. lia.
Qed.

End Proofs.

(** * The development at work on the scripted game *)

Import Scripted.

(** A search of seven iterations on [long_game], all draws being 1: the
    action returned and the tree printed. *)
Example search_long_game :
  ∃ w, choose_card 20 (mkAgent 7 true 0.5%float) long_game
         (empty_world (const_rng 1)) = Done 2 w ∧
    stdout w =
      ["2: visits=6, avg=5.42"; "  4: visits=4, avg=5.50";
       "    5: visits=3, avg=5.50"; "  3: visits=1, avg=5.00";
       "1: visits=1, avg=5.00"] ∧
    pos (rng w) = 11.
Proof. eexists. split; [vm_compute; reflexivity|]. split; reflexivity. Qed.

Lemma searched_world_reachable : reachable searched_world.
Proof.
  apply (reach_call (empty_world (const_rng 1))
           (CallChooseCard 20 (mkAgent 7 true 0.5%float) long_game)).
  - apply reach_init.
  - vm_compute. reflexivity.
Defined.

(** [grown_world] is what the calls of [growth] make of the empty heap. *)
Lemma grown_world_grows :
  run_all growth (empty_world (const_rng 0)) = Done () grown_world.
Proof. vm_compute. reflexivity. Qed.

Lemma grown_world_reachable : reachable grown_world.
Proof.
  eapply reachable_run_all; [apply reach_init|apply grown_world_grows].
Qed.

(** A scripted game keeps the contract from every sound script on, the
    turns left being the measure. *)
Lemma scripted_keeps_contract :
  keeps_contract sound_script (λ s, length (script s)).
Proof.
  intros [[|turn rest] done_] HP He; [done|].
  apply Forall_cons in HP as [[Hne Hnd] HP].
  split_and!; [done..|]. intros a g _. split; [done|]. simpl. lia.
Qed.

Lemma visits_match_results_witness :
  reachable searched_world ∧ consistent (heap searched_world).
Proof.
  split; [exact searched_world_reachable|].
  exact (proj1 (visits_match_results searched_world searched_world_reachable)).
Defined.

Lemma backpropagate_updates_path_witness :
  5 < length (heap searched_world) ∧
  ∃ w', backpropagate 6 5 1%float searched_world = Done () w'.
Proof.
  split; [vm_compute; lia|].
  destruct (backpropagate_updates_path 6 5 1%float searched_world)
    as (w' & Hrun & _).
  - exact searched_world_reachable.
  - vm_compute. lia.
  - lia.
  - by exists w'.
Defined.

Lemma children_actions_distinct_witness :
  reachable searched_world ∧ distinct_children (heap searched_world).
Proof.
  split; [exact searched_world_reachable|].
  exact (proj1 (children_actions_distinct searched_world
                  searched_world_reachable)).
Defined.


Lemma select_total_counts_all_children_witness :
  total_visits grown_kids = 200 ∧
  ∃ r w', select 9 0 shifted_game grown_world = Done r w' ∧
    (∃ m', heap w' !! 2 = Some m' ∧ visits m' = 2) ∧
    heap w' !! 1 = Some (node_of [] (Some 0) (replicate 4 1%float)).
Proof.
  split; [reflexivity|].
  destruct (select_total_counts_all_children sound_script
              (λ s, length (script s)) 8 0 shifted_game grown_world
              grown_root grown_kids)
    as (i & k & r & w' & Hfm & Hi & Hsel & _ & Hkid & Hsib & _).
  - exact scripted_keeps_contract.
  - unfold sound_script. apply (bool_decide_unpack _). vm_compute. exact I.
  - exact grown_world_reachable.
  - vm_compute. lia.
  - reflexivity.
  - reflexivity.
  - reflexivity.
  - reflexivity.
  - discriminate.
  - apply strict_weakb_sound. vm_compute. reflexivity.
  - repeat constructor.
  - assert (Hk : k = (1, 2, node_of [] (Some 0) [0.5%float])).
    { destruct Hfm as (k' & Hk' & Hmax & _).
      assert (k' = k) as -> by congruence.
      destruct i as [|[|i]]; [|by injection Hi as <-|done].
      injection Hi as <-. specialize (Hmax 1 _ eq_refl).
      vm_compute in Hmax. discriminate. }
    subst k. exists r, w'. split_and!; [exact Hsel|exact Hkid|].
    apply (Hsib (2, 1, node_of [] (Some 0) (replicate 4 1%float)));
      [by apply (list_elem_of_lookup_2 _ 0)|discriminate].
Defined.

(** C2 (counterexample).  The root of [grown_world] has a child for the
    action 0, seen 195 times, which is not legal in [shifted_game].  With
    the visits summed over the two legal children only (5 visits) the
    first child, of action 2, would have the greatest score; [select]
    sums over all three (200 visits) and goes to the second, of action 1. *)
Lemma select_total_not_legal_only :
  let actions := get_actions shifted_game in
  let cands := filter (λ k, k.1.1 ∈ actions) grown_kids in
  deref (heap grown_world) (children grown_root) = Some grown_kids ∧
  total_visits cands = 5 ∧
  total_visits grown_kids = 200 ∧
  first_max (ucb1_legal_only 0.5%float actions grown_kids) cands 0 ∧
  first_max (ucb1 0.5%float grown_kids) cands 1 ∧
  select 5 0 shifted_game grown_world =
    descend 4 shifted_game (1, 2) grown_world ∧
  select 5 0 shifted_game grown_world ≠
    descend 4 shifted_game (2, 1) grown_world.
Proof.
  split_and!; try reflexivity.
  - eexists. split_and!; [reflexivity| |intros; lia].
    intros [|[|j]] y [= <-]; reflexivity.
  - eexists. split_and!; [reflexivity| |].
    + intros [|[|j]] y [= <-]; reflexivity.
    + intros [|[|j]] y Hj [= <-]; [reflexivity|lia].
  - intros Heq.
    apply (f_equal (λ o : outcome (World float nat) nat,
                      match o with Done r _ => r | Fail _ => 0 end)) in Heq.
    vm_compute in Heq. discriminate.
Qed.

Lemma get_best_returns_best_average_witness :
  get_best 0 same_game grown_world = Done 2 grown_world ∧
  ∃ a, get_best 1 same_game grown_world =
         Done a (mkWorld grown_heap (advance (rng grown_world)) []).
Proof.
  split.
  - destruct (get_best_returns_best_average 0 same_game grown_world
                grown_root grown_kids) as [_ Hkids]; [done..|].
    destruct Hkids as (_ & i & k & Hfm & Hi & Hget & Hvis); [done| |].
    { apply strict_weakb_sound. vm_compute. reflexivity. }
    rewrite Hget. do 2 f_equal.
    destruct Hfm as (k' & Hk' & Hmax & _).
    assert (k' = k) as -> by congruence.
    destruct i as [|[|[|i]]]; [by injection Hi as <-| | |done].
    + injection Hi as <-. specialize (Hmax 0 _ eq_refl).
      vm_compute in Hmax. discriminate.
    + injection Hi as <-. specialize (Hmax 0 _ eq_refl).
      vm_compute in Hmax. discriminate.
  - destruct (get_best_returns_best_average 1 same_game grown_world
                (node_of [] (Some 0) (replicate 4 1%float)) [])
      as [Hleaf _]; [done..|].
    destruct Hleaf as (a & _ & Hget); [done|]. by exists a.
Defined.

Lemma select_fallback_repairs_witness :
  ∃ r w', select 9 0 foreign_game grown_world = Done r w' ∧
    (∃ m', heap w' !! 4 = Some m' ∧ parent m' = Some 0 ∧ visits m' = 1) ∧
    (∃ n', heap w' !! 0 = Some n' ∧
           children n' = [(2, 1); (1, 2); (0, 3); (7, 4)]) ∧
    heap w' !! 1 = Some (node_of [] (Some 0) (replicate 4 1%float)).
Proof.
  destruct (select_fallback_repairs sound_script (λ s, length (script s))
              8 0 foreign_game grown_world grown_root grown_kids)
    as (a & r & w' & Ha & _ & _ & Hsel & _ & Hnew & Hroot & Hold).
  - exact scripted_keeps_contract.
  - unfold sound_script. apply (bool_decide_unpack _). vm_compute. exact I.
  - exact grown_world_reachable.
  - vm_compute. lia.
  - reflexivity.
  - reflexivity.
  - reflexivity.
  - reflexivity.
  - repeat constructor; vm_compute; intros Hin;
      repeat (apply elem_of_cons in Hin as [Hin|Hin]; [discriminate Hin|]);
      by apply elem_of_nil in Hin.
  - injection Ha as <-. exists r, w'. split_and!; [exact Hsel| | |].
    + destruct Hnew as (m' & Hm' & Hp & _ & Hv). by exists m'.
    + destruct Hroot as (n' & Hn' & Hc & _). by exists n'.
    + apply (Hold (2, 1, node_of [] (Some 0) (replicate 4 1%float))).
      by apply (list_elem_of_lookup_2 _ 0).
Defined.

Lemma choose_card_single_action_witness :
  choose_card 0 (mkAgent 1000 true 0.5%float) (mkGame [[4]; [1; 2]] [])
    (empty_world (const_rng 0)) = Done 4 (empty_world (const_rng 0)).
Proof.
  exact (choose_card_single_action 0 (mkAgent 1000 true 0.5%float)
           (mkGame [[4]; [1; 2]] []) (empty_world (const_rng 0)) 4 eq_refl).
Defined.

Lemma expand_choice_nonempty_witness :
  ∃ a, choice (unexplored_of (node_of [] (Some 0) [0.5%float]) [2; 1; 0])
         grown_world
       = Done a (mkWorld grown_heap (advance (rng grown_world)) []).
Proof.
  destruct (expand_choice_nonempty 4 2 same_game grown_world
              (node_of [] (Some 0) [0.5%float]))
    as (_ & _ & a & Ha & _).
  - reflexivity.
  - reflexivity.
  - reflexivity.
  - apply (bool_decide_unpack _). vm_compute. exact I.
  - by exists a.
Defined.

(** C1.  [grown_world] is reached from the empty heap by calls of
    [select].  At its root, with children for the actions 2, 1 and 0, on
    [shifted_game], which has not ended and where 2, 1 and 9 are legal: the
    legal action 9 has no child, yet [select] does not call [expand].  It
    returns the child of action 1, constructs no node and leaves the
    children of the root as they were, whereas [expand], called as
    [select] calls it when it does, returns a new child for the action
    9. *)
Theorem select_skips_missing_action :
  reachable grown_world ∧
  ended shifted_game = false ∧
  heap grown_world !! 0 = Some grown_root ∧
  NoDup (get_actions shifted_game) ∧
  9 ∈ get_actions shifted_game ∧
  (9 ∉ tried_of grown_root) ∧
  expand_triggered grown_root (get_actions shifted_game) = false ∧
  (∃ w', select 9 0 shifted_game grown_world = Done 2 w' ∧
     length (heap w') = length (heap grown_world) ∧
     children <$> (heap w' !! 0) = Some (children grown_root)) ∧
  (∃ w', expand 8 0 shifted_game (get_actions shifted_game) grown_world
           = Done 4 w' ∧
     length (heap w') = S (length (heap grown_world)) ∧
     children <$> (heap w' !! 0) = Some (children grown_root ++ [(9, 4)])).
Proof.
  split; [apply grown_world_reachable|].
  split_and!; try reflexivity.
  - apply (bool_decide_unpack _). vm_compute. exact I.
  - repeat constructor.
  - vm_compute. intros Hin.
    repeat (apply elem_of_cons in Hin as [Hin|Hin]; [discriminate Hin|]).
    by apply elem_of_nil in Hin.
  - eexists. split; [vm_compute; reflexivity|]. split; reflexivity.
  - eexists. split; [vm_compute; reflexivity|]. split; reflexivity.
Qed.

(** * The further properties at work *)

Lemma rollout_returns_final_score_witness :
  rollout 5 0 long_game (empty_world (const_rng 1)) =
    Done 5.5%float (mkWorld [] {| tape := λ _, 1; pos := 3 |} []) ∧
  ∃ final : game, ended final = true ∧ 5.5%float = state_score final.
Proof.
  assert (Hr : rollout 5 0 long_game (empty_world (const_rng 1)) =
    Done 5.5%float (mkWorld [] {| tape := λ _, 1; pos := 3 |} []))
    by (vm_compute; reflexivity).
  split; [exact Hr|].
  exact (proj1 (proj2 (proj2 (rollout_returns_final_score _ _ _ _ _ _ Hr)))).
Defined.

Lemma no_action_raises_index_error_witness :
  select 5 0 (mkGame [[]] []) grown_world = Fail IndexError.
Proof.
  exact (proj1 (no_action_raises_index_error 4 0 (mkGame [[]] []) grown_world
                  grown_root grown_kids eq_refl eq_refl eq_refl eq_refl)).
Defined.

Lemma expand_without_unexplored_fails_witness :
  expand 4 0 same_game [2; 1] grown_world = Fail IndexError.
Proof.
  apply (expand_without_unexplored_fails 4 0 same_game [2; 1] grown_world
           grown_root); [reflexivity|].
  repeat constructor.
Defined.

Lemma get_best_returns_known_action_witness :
  get_best 0 same_game grown_world = Done 2 grown_world ∧
  2 ∈ tried_of grown_root.
Proof.
  assert (Hg : get_best 0 same_game grown_world = Done 2 grown_world)
    by (vm_compute; reflexivity).
  split; [exact Hg|].
  destruct (get_best_returns_known_action 0 same_game grown_world grown_root
              2 grown_world eq_refl Hg) as (_ & _ & _ & Hkids).
  apply Hkids. discriminate.
Defined.

Lemma print_tree_reads_only_witness :
  ∃ w', print_tree 3 0 0 grown_world = Done () w' ∧
    heap w' = heap grown_world ∧ rng w' = rng grown_world ∧
    stdout w' = ["2: visits=4, avg=1.00"; "1: visits=1, avg=0.50";
                 "0: visits=195, avg=0.00"].
Proof.
  eexists. split; [vm_compute; reflexivity|].
  match goal with |- heap ?w' = _ ∧ _ =>
    destruct (print_tree_reads_only 3 0 0 grown_world () w')
      as (Hh & Hg & _); [vm_compute; reflexivity|]
  end.
  split_and!; [exact Hh|exact Hg|reflexivity].
Defined.

Lemma calls_keep_nodes_witness :
  ∃ w', run (CallSelect 5 0 same_game) grown_world = Done () w' ∧
    extends (heap grown_world) (heap w').
Proof.
  eexists. split; [vm_compute; reflexivity|].
  match goal with |- extends _ (heap ?w') =>
    apply (calls_keep_nodes (CallSelect 5 0 same_game) grown_world () w')
  end.
  vm_compute. reflexivity.
Defined.

Lemma children_are_linked_witness :
  reachable searched_world ∧ linked (heap searched_world).
Proof.
  split; [exact searched_world_reachable|].
  exact (children_are_linked searched_world searched_world_reachable).
Defined.

Lemma select_visits_once_witness :
  ∃ r w', select 5 0 same_game grown_world = Done r w' ∧
    ∃ x n', heap w' !! 0 = Some n' ∧
      results n' = results grown_root ++ [x] ∧ visits n' = 201.
Proof.
  eexists _, _. split; [vm_compute; reflexivity|].
  match goal with |- ∃ x n', heap ?w' !! 0 = _ ∧ _ =>
    destruct (select_visits_once 5 0 same_game grown_world 2 w'
                grown_world_reachable) as (x & Hx); [vm_compute; reflexivity|]
  end.
  destruct (Hx 0 grown_root eq_refl (rtc_refl _ _)) as (n' & Hn' & Hr & Hv).
  exists x, n'. split_and!; [exact Hn'|exact Hr|exact Hv].
Defined.

Lemma choose_card_visits_root_witness :
  ∃ root, heap searched_world !! 0 = Some root ∧ visits root = 7.
Proof.
  destruct (choose_card_visits_root 20 (mkAgent 7 true 0.5%float) long_game
              (empty_world (const_rng 1)) 2 searched_world)
    as (root & Hroot & _ & _ & Hv & _).
  - apply reach_init.
  - intros a. discriminate.
  - vm_compute. reflexivity.
  - exists root. split; [exact Hroot|exact Hv].
Defined.

Lemma select_on_ended_state_witness :
  ∃ w', select 4 2 (mkGame [] [1]) grown_world = Done 2 w' ∧
    length (heap w') = 4.
Proof.
  destruct (select_on_ended_state 3 2 (mkGame [] [1]) grown_world)
    as (w' & Hs & _ & _ & Hlen & _).
  - exact grown_world_reachable.
  - reflexivity.
  - vm_compute. lia.
  - lia.
  - exists w'. split; [exact Hs|exact Hlen].
Defined.

Lemma expand_adds_one_leaf_witness :
  ∃ w' x, expand 4 1 same_game [2; 1; 0] grown_world = Done 4 w' ∧
    length (heap w') = 5 ∧
    rollout 4 4 (mkGame [] [2])
      (mkWorld (<[1 := append_child 2 4
                          (node_of [] (Some 0) (replicate 4 1%float))]>
                  (grown_heap ++ [init_node 0.5%float (Some 1)]))
               (advance (rng grown_world)) [])
      = Done x (mkWorld (<[1 := append_child 2 4
                                 (node_of [] (Some 0) (replicate 4 1%float))]>
                           (grown_heap ++ [init_node 0.5%float (Some 1)]))
                        (rng w') []) ∧
    heap w' !! 4 = Some (mkNode [] (Some 1) [x] 1 0.5%float) ∧
    heap w' !! 0 = Some (visited x grown_root).
Proof.
  assert (Hx : ∃ w', expand 4 1 same_game [2; 1; 0] grown_world = Done 4 w')
    by (eexists; vm_compute; reflexivity).
  destruct Hx as [w' Hx]. exists w'.
  destruct (expand_adds_one_leaf 4 1 same_game [2; 1; 0] grown_world 4 w'
              (node_of [] (Some 0) (replicate 4 1%float)))
    as (_ & Hlen & _ & a & x & Ha & _ & _ & Hroll & Hleaf & _ & Hanc & _).
  - exact grown_world_reachable.
  - reflexivity.
  - exact Hx.
  - injection Ha as <-. exists x.
    split_and!; [exact Hx|exact Hlen|exact Hroll|exact Hleaf|].
    apply Hanc; [reflexivity|discriminate|].
    apply rtc_once. by exists (node_of [] (Some 0) (replicate 4 1%float)).
Defined.

(** Two nodes are added when the fallback makes a child and the state has
    not ended after the step. *)
Lemma select_adds_at_most_two_nodes_witness :
  ∃ r w', select 6 0 (mkGame [[7; 8; 9]; [1]] []) grown_world = Done r w' ∧
    length (heap w') = length (heap grown_world) + 2 ∧
    length (heap grown_world) ≤ length (heap w')
      ≤ length (heap grown_world) + 2.
Proof.
  eexists _, _. split; [vm_compute; reflexivity|].
  split; [reflexivity|].
  match goal with |- _ ≤ length (heap ?w') ≤ _ =>
    apply (select_adds_at_most_two_nodes 6 0 (mkGame [[7; 8; 9]; [1]] [])
             grown_world 5 w')
  end.
  vm_compute. reflexivity.
Defined.

Lemma choose_card_without_iterations_witness :
  choose_card 1 (mkAgent 0 true 0.5%float) long_game
    (empty_world (const_rng 1)) =
  Done 2 (mkWorld [init_node 0.5%float None] (advance (const_rng 1)) []).
Proof.
  destruct (choose_card_without_iterations 1 (mkAgent 0 true 0.5%float)
              long_game (empty_world (const_rng 1))) as (a & Ha & Hc).
  - reflexivity.
  - vm_compute. lia.
  - intros _. lia.
  - injection Ha as <-. exact Hc.
Defined.

Lemma select_appends_one_legal_child_witness :
  ∃ r w' n', select 5 1 same_game grown_world = Done r w' ∧
    heap w' !! 1 = Some n' ∧ length (children n') ≤ 1.
Proof.
  eexists _, _. 
  assert (Hs : select 5 1 same_game grown_world = Done 4
    (match select 5 1 same_game grown_world with
     | Done _ w => w | Fail _ => grown_world end))
    by (vm_compute; reflexivity).
  destruct (select_appends_one_legal_child 5 1 same_game grown_world 4 _
              (node_of [] (Some 0) (replicate 4 1%float))
              grown_world_reachable eq_refl Hs) as (_ & n' & Hn' & Hc).
  exists n'. split; [exact Hs|]. split; [exact Hn'|].
  destruct Hc as [->|(a & c & -> & _)]; simpl; lia.
Defined.

Lemma choose_card_returns_legal_action_witness :
  ∃ a, a ∈ get_actions long_game ∧ 2 = to_action a long_game.
Proof.
  apply (choose_card_returns_legal_action 20 (mkAgent 7 true 0.5%float)
           long_game (empty_world (const_rng 1)) 2 searched_world).
  - apply reach_init.
  - intros g. reflexivity.
  - vm_compute. reflexivity.
Defined.

Lemma print_tree_returns_witness :
  ∃ w', print_tree 6 0 0 searched_world = Done () w' ∧
    heap w' = heap searched_world.
Proof.
  apply (print_tree_returns 6 0 0 searched_world).
  - exact searched_world_reachable.
  - vm_compute. lia.
  - vm_compute. lia.
Defined.

(** ** A game that ends

    The countdown game keeps the contract: while the counter is not zero it
    offers two distinct actions, and every step lowers the counter. *)

Import Countdown.

Lemma countdown_well_behaved : well_behaved (λ s : nat, s).
Proof.
  intros s Hs. simpl in *. case_bool_decide; [done|].
  split; [done|]. split.
  - apply NoDup_cons. split; [|apply NoDup_singleton].
    intros ?%list_elem_of_singleton. done.
  - intros a g _. simpl. lia.
Qed.

Lemma countdown_root_reachable :
  reachable (State := nat)
    (mkWorld [init_node 0.5%float None] (const_rng 0) []).
Proof.
  apply (reach_call (empty_world (const_rng 0)) (CallNew 0.5%float None)).
  - apply reach_init.
  - reflexivity.
Qed.

Lemma rollout_returns_witness :
  ∃ r w', rollout 4 0 (3 : nat) (empty_world (const_rng 0)) = Done r w'.
Proof.
  apply (rollout_returns (λ s : nat, s) 4 0 3 (empty_world (const_rng 0))).
  - exact countdown_well_behaved.
  - simpl. lia.
Defined.

Lemma select_returns_witness :
  ∃ r w', select 10 0 (3 : nat)
            (mkWorld [init_node 0.5%float None] (const_rng 0) []) = Done r w'.
Proof.
  apply (select_returns (λ s : nat, s) 10 0 3).
  - exact countdown_well_behaved.
  - exact countdown_root_reachable.
  - simpl. lia.
  - simpl. lia.
Defined.

Lemma choose_card_returns_witness :
  ∃ e w', choose_card 15 (mkAgent 2 true 0.5%float) (3 : nat)
            (empty_world (const_rng 0)) = Done e w'.
Proof.
  apply (choose_card_returns (λ s : nat, s) 15 (mkAgent 2 true 0.5%float) 3
           (empty_world (const_rng 0))).
  - exact countdown_well_behaved.
  - intros g. simpl. lia.
  - apply reach_init.
  - reflexivity.
  - simpl. lia.
Defined.
